(** * A range-aware history cache for an OPC UA node

    Shallow embedding of [cache.py]: the paginated gap fetcher
    [node_read_full_history] and the class [NodeHistoryCache], together with
    the part of the interval library [portion] that the cache calls
    ([interval.open], [interval.empty], [|], [complement], [intersection],
    the attributes [empty], [lower], [upper] and iteration over the atomic
    intervals). *)

From Stdlib Require Import ZArith QArith Lia Lqa List Bool Sorted Permutation.
Import ListNotations.

(* ================================================================== *)
(** * Part I: definitions                                              *)
(* ================================================================== *)

(** ** The interval library

    [portion] keeps an interval as a list of atomic intervals
    [(left, lower, upper, right)], sorted by lower bound, in which no two
    neighbours overlap or touch.  A bound value is a timestamp or one of the
    library's two infinities; the library only ever compares bound values, so
    it sees the timeline as dense: [open 5 6] is a non-empty interval. *)
Module Portion.

(** [Bound.CLOSED] and [Bound.OPEN]; [~] swaps them. *)
Inductive Bound : Type := CLOSED | OPEN.

Definition Bound_invert (b : Bound) : Bound :=
  match b with CLOSED => OPEN | OPEN => CLOSED end.

Definition Bound_eqb (a b : Bound) : bool :=
  match a, b with
  | CLOSED, CLOSED | OPEN, OPEN => true
  | _, _ => false
  end.

(** A bound value: [-inf], a timestamp (an integer count of clock ticks), or
    [inf]. *)
Inductive xtime : Type := NInf | T (t : Z) | PInf.

Definition xcompare (a b : xtime) : comparison :=
  match a, b with
  | NInf, NInf => Eq
  | NInf, _ => Lt
  | _, NInf => Gt
  | PInf, PInf => Eq
  | PInf, _ => Gt
  | _, PInf => Lt
  | T x, T y => Z.compare x y
  end.

Definition xeqb (a b : xtime) : bool :=
  match xcompare a b with Eq => true | _ => false end.
Definition xltb (a b : xtime) : bool :=
  match xcompare a b with Lt => true | _ => false end.
Definition xleb (a b : xtime) : bool :=
  match xcompare a b with Gt => false | _ => true end.

(** Python's [max(a, b)] and [min(a, b)]: the first argument wins a tie. *)
Definition xmax (a b : xtime) : xtime := if xltb a b then b else a.
Definition xmin (a b : xtime) : xtime := if xltb b a then b else a.

Definition is_inf (v : xtime) : bool :=
  match v with T _ => false | _ => true end.

Record Atomic : Type := mkAtomic
  { left : Bound; lower : xtime; upper : xtime; right : Bound }.

Definition Atomic_eqb (a b : Atomic) : bool :=
  Bound_eqb (left a) (left b) && xeqb (lower a) (lower b)
  && xeqb (upper a) (upper b) && Bound_eqb (right a) (right b).

(** [Interval._intervals]; the empty interval is the empty list. *)
Definition Interval : Type := list Atomic.

(** [__eq__] on intervals, which is what a dict keyed by intervals uses. *)
Fixpoint Interval_eqb (i j : Interval) : bool :=
  match i, j with
  | [], [] => true
  | a :: i', b :: j' => Atomic_eqb a b && Interval_eqb i' j'
  | _, _ => false
  end.

(** The attributes [empty], [atomic], [left], [lower], [upper], [right]. *)
Definition Interval_empty (i : Interval) : bool :=
  match i with [] => true | _ => false end.

Definition Interval_atomic (i : Interval) : bool := (length i <=? 1)%nat.

Definition Interval_left (i : Interval) : Bound :=
  match i with [] => OPEN | a :: _ => left a end.
Definition Interval_lower (i : Interval) : xtime :=
  match i with [] => PInf | a :: _ => lower a end.
Definition Interval_upper (i : Interval) : xtime :=
  match rev i with [] => NInf | a :: _ => upper a end.
Definition Interval_right (i : Interval) : Bound :=
  match rev i with [] => OPEN | a :: _ => right a end.

(** [Interval.from_atomic]: infinite bounds are forced open, and bounds that
    enclose nothing give the empty interval. *)
Definition from_atomic (l : Bound) (lo up : xtime) (r : Bound) : Interval :=
  let l := if is_inf lo then OPEN else l in
  let r := if is_inf up then OPEN else r in
  if xltb lo up || (xeqb lo up && Bound_eqb l CLOSED && Bound_eqb r CLOSED)
  then [mkAtomic l lo up r]
  else [].

Definition empty : Interval := [].
Definition open (lo up : xtime) : Interval := from_atomic OPEN lo up OPEN.

(** [mergeable(a, b)]: the two atomic intervals overlap or are adjacent. *)
Definition mergeable (a b : Atomic) : bool :=
  let (first, second) :=
    if xltb (lower a) (lower b)
       || (xeqb (lower a) (lower b) && Bound_eqb (left a) CLOSED)
    then (a, b) else (b, a) in
  if xeqb (upper first) (lower second)
  then Bound_eqb (right first) CLOSED || Bound_eqb (left second) CLOSED
  else xltb (lower second) (upper first).

(** The sort key of the constructor is [(i.lower, i.left is Bound.OPEN)]. *)
Definition key_le (a b : Atomic) : bool :=
  match xcompare (lower a) (lower b) with
  | Lt => true
  | Gt => false
  | Eq => Bound_eqb (left a) CLOSED || Bound_eqb (left b) OPEN
  end.

(** [list.sort] is stable; so is this insertion sort. *)
Fixpoint insert_by_key (a : Atomic) (l : list Atomic) : list Atomic :=
  match l with
  | [] => [a]
  | b :: l' => if key_le a b then a :: l else b :: insert_by_key a l'
  end.

Definition sort_by_key (l : list Atomic) : list Atomic :=
  fold_right insert_by_key [] l.

(** The atomic interval the constructor puts in place of two mergeable
    neighbours. *)
Definition merged (current successor : Atomic) : Atomic :=
  let (lo, l) :=
    if xeqb (lower current) (lower successor)
    then (lower current,
          if Bound_eqb (left current) CLOSED
          then left current else left successor)
    else
      let lo := xmin (lower current) (lower successor) in
      (lo, if xeqb lo (lower current) then left current else left successor)
  in
  let (up, r) :=
    if xeqb (upper current) (upper successor)
    then (upper current,
          if Bound_eqb (right current) CLOSED
          then right current else right successor)
    else
      let up := xmax (upper current) (upper successor) in
      (up, if xeqb up (upper current) then right current else right successor)
  in
  mkAtomic l lo up r.

(** The constructor's loop [while i < len(self._intervals) - 1], with
    [current] the element at index [i] and [rest] what follows it. *)
Fixpoint merge_from (current : Atomic) (rest : list Atomic) : list Atomic :=
  match rest with
  | [] => [current]
  | successor :: rest' =>
      if mergeable current successor
      then merge_from (merged current successor) rest'
      else current :: merge_from successor rest'
  end.

Definition merge_sorted (l : list Atomic) : list Atomic :=
  match l with
  | [] => []
  | a :: rest => merge_from a rest
  end.

(** The constructor [Interval], given any number of intervals: gather the atomic intervals of the non-empty
    arguments, sort them, merge neighbours. *)
Definition Interval_init (intervals : list Interval) : Interval :=
  merge_sorted
    (sort_by_key
       (flat_map (fun i => if Interval_empty i then [] else i) intervals)).

(** [a | b]. *)
Definition Interval_or (a b : Interval) : Interval := Interval_init [a; b].

(** Iterating an interval yields its atomic intervals as intervals. *)
Definition Interval_iter (i : Interval) : list Interval :=
  map (fun a => from_atomic (left a) (lower a) (upper a) (right a)) i.

(** The branch of [__and__] taken when both operands are atomic. *)
Definition and_atomic (self other : Interval) : Interval :=
  let (lo, l) :=
    if xeqb (Interval_lower self) (Interval_lower other)
    then (Interval_lower self,
          if Bound_eqb (Interval_left self) OPEN
          then Interval_left self else Interval_left other)
    else
      let lo := xmax (Interval_lower self) (Interval_lower other) in
      (lo, if xeqb lo (Interval_lower self)
           then Interval_left self else Interval_left other)
  in
  let (up, r) :=
    if xeqb (Interval_upper self) (Interval_upper other)
    then (Interval_upper self,
          if Bound_eqb (Interval_right self) OPEN
          then Interval_right self else Interval_right other)
    else
      let up := xmin (Interval_upper self) (Interval_upper other) in
      (up, if xeqb up (Interval_upper self)
           then Interval_right self else Interval_right other)
  in
  from_atomic l lo up r.

(** [a & b], also [a.intersection(b)]. *)
Definition Interval_and (self other : Interval) : Interval :=
  if Interval_atomic self && Interval_atomic other
  then and_atomic self other
  else
    Interval_init
      (flat_map
         (fun interval =>
            map (fun other_interval => and_atomic interval other_interval)
                (Interval_iter other))
         (Interval_iter self)).

(** [zip(l[:-1], l[1:])]. *)
Fixpoint neighbours (l : list Atomic) : list (Atomic * Atomic) :=
  match l with
  | a :: (b :: _) as l' => (a, b) :: neighbours l'
  | _ => []
  end.

(** [~a], also [a.complement()]. *)
Definition Interval_invert (self : Interval) : Interval :=
  Interval_init
    (from_atomic OPEN NInf (Interval_lower self)
                 (Bound_invert (Interval_left self))
     :: from_atomic (Bound_invert (Interval_right self))
                    (Interval_upper self) PInf OPEN
     :: map (fun p : Atomic * Atomic =>
               let (i, j) := p in
               from_atomic (Bound_invert (right i)) (upper i) (lower j)
                           (Bound_invert (left j)))
            (neighbours self)).

(** [t in i] for a timestamp [t]. *)
Definition contains (i : Interval) (t : Z) : bool :=
  existsb
    (fun a =>
       (match left a with
        | CLOSED => xleb (lower a) (T t)
        | OPEN => xltb (lower a) (T t)
        end)
       && (match right a with
           | CLOSED => xleb (T t) (upper a)
           | OPEN => xltb (T t) (upper a)
           end))
    i.

End Portion.

Import Portion.

(** ** The data source and the cache *)

(** An [opcua] data value, reduced to the field the cache reads and a
    payload. *)
Record DataValue : Type := mkDataValue
  { SourceTimestamp : Z; Value : Z }.

(** What one call of [node.read_raw_history] does: it returns a list of data
    values or raises. *)
Inductive page (exn : Type) : Type :=
| Vals (vals : list DataValue)
| Raises (e : exn).
Arguments Vals {exn} vals.
Arguments Raises {exn} e.

(** How a call ended.  [OutOfFuel] stands for a loop that was still running
    when the fuel of the model ran out. *)
Inductive outcome (exn : Type) : Type :=
| Finished
| Raised (e : exn)
| OutOfFuel.
Arguments Finished {exn}.
Arguments Raised {exn} e.
Arguments OutOfFuel {exn}.

(** The result of running a piece of the program: how it ended, the value it
    had built by then, the state of the node, and the page requests it made,
    in order, each with its [starttime] and [endtime]. *)
Record run (exn Node A : Type) : Type := mkRun
  { status : outcome exn;
    value : A;
    node_after : Node;
    requests : list (xtime * xtime) }.
Arguments mkRun {exn Node A} status value node_after requests.
Arguments status {exn Node A} r.
Arguments value {exn Node A} r.
Arguments node_after {exn Node A} r.
Arguments requests {exn Node A} r.

(** [self.history]: a dict keyed by intervals.  A Python dict iterates in
    insertion order, and assigning to a key that is present keeps its place. *)
Definition dict : Type := list (Interval * list DataValue).

Fixpoint dict_set (d : dict) (k : Interval) (v : list DataValue) : dict :=
  match d with
  | [] => [(k, v)]
  | (k', v') :: d' =>
      if Interval_eqb k' k then (k', v) :: d' else (k', v') :: dict_set d' k v
  end.

Definition keys (d : dict) : list Interval := map fst d.

(** [vals[-1]], when [vals] is not empty. *)
Definition last_value (vals : list DataValue) : option DataValue :=
  match rev vals with
  | [] => None
  | v :: _ => Some v
  end.

Section Cache.

Context {exn Node : Type}.

(** The node object: its state and its method [read_raw_history]. *)
Variable read_raw_history : Node -> xtime -> xtime -> Node * page exn.

(** [node_read_full_history]; the value of the run is the list of everything
    the generator has yielded. *)
Fixpoint node_read_full_history (fuel : nat) (node : Node)
    (start end_ : xtime) : run exn Node (list DataValue) :=
  match fuel with
  | O => mkRun OutOfFuel [] node []
  | S fuel' =>
      let (node1, p) := read_raw_history node start end_ in
      match p with
      | Raises e => mkRun (Raised e) [] node1 [(start, end_)]
      | Vals vals =>
          match last_value vals with
          | None => mkRun Finished vals node1 [(start, end_)]
          | Some last =>
              if xeqb start (T (SourceTimestamp last))
              then mkRun Finished vals node1 [(start, end_)]
              else if xltb end_ start
              then mkRun Finished vals node1 [(start, end_)]
              else
                let r :=
                  node_read_full_history fuel' node1
                    (T (SourceTimestamp last)) end_ in
                mkRun (status r) (vals ++ value r) (node_after r)
                      ((start, end_) :: requests r)
          end
      end
  end.

(** [_history_available_interval]. *)
Definition _history_available_interval (history : dict) : Interval :=
  match keys history with
  | [] => empty
  | k :: ks => fold_left Interval_or ks k
  end.

(** [_get_available_interval]. *)
Definition _get_available_interval (history : dict) (start end_ : xtime)
  : Interval :=
  let requested_int := open start end_ in
  let avail_int := _history_available_interval history in
  Interval_and avail_int requested_int.

(** [_get_missing_intervals]. *)
Definition _get_missing_intervals (history : dict) (start end_ : xtime)
  : Interval :=
  let requested_int := open start end_ in
  Interval_and (Interval_invert (_get_available_interval history start end_))
               requested_int.

(** [_populate_cache], over the atomic intervals that the loop iterates.
    [list(dvs)] runs the fetch to its end before the assignment to
    [self.history[span]]; a fetch that raises leaves the dict as it is. *)
Fixpoint _populate_cache (fuel : nat) (node : Node) (history : dict)
    (intervals : list Interval) : run exn Node dict :=
  match intervals with
  | [] => mkRun Finished history node []
  | atomic_int :: rest =>
      let dvs :=
        node_read_full_history fuel node
          (Interval_lower atomic_int) (Interval_upper atomic_int) in
      match status dvs with
      | Finished =>
          let span :=
            open (Interval_lower atomic_int) (Interval_upper atomic_int) in
          let r :=
            _populate_cache fuel (node_after dvs)
              (dict_set history span (value dvs)) rest in
          mkRun (status r) (value r) (node_after r)
                (requests dvs ++ requests r)
      | st => mkRun st history (node_after dvs) (requests dvs)
      end
  end.

(** [_get_partial_dvs]. *)
Definition _get_partial_dvs (start end_ : xtime) (dvs : list DataValue)
  : list DataValue :=
  filter
    (fun x =>
       xleb start (T (SourceTimestamp x)) && xleb (T (SourceTimestamp x)) end_)
    dvs.

(** [_dvs_from_cache]: what the generator yields when it is consumed while
    the dict is [history]. *)
Definition _dvs_from_cache (history : dict) (start end_ : xtime)
  : list DataValue :=
  let req_int := open start end_ in
  flat_map
    (fun entry : Interval * list DataValue =>
       let (atomicint, dvs) := entry in
       let intersect := Interval_and atomicint req_int in
       if Interval_empty intersect then []
       else _get_partial_dvs (Interval_lower intersect)
                             (Interval_upper intersect) dvs)
    history.

(** [get_history], up to the [return]: the value of the run is the dict
    after the call.  The generator it returns is [_dvs_from_cache] on that
    dict. *)
Definition get_history (fuel : nat) (node : Node) (history : dict)
    (start end_ : Z) : run exn Node dict :=
  let missing := _get_missing_intervals history (T start) (T end_) in
  if negb (Interval_empty missing)
  then _populate_cache fuel node history (Interval_iter missing)
  else mkRun Finished history node [].

(** The node state and the cursor with which the loop of
    [node_read_full_history] makes its page request number [n] (counting from
    0), when the loop gets that far. *)
Fixpoint cursor_at (n : nat) (node : Node) (start end_ : xtime)
  : option (Node * xtime) :=
  match n with
  | O => Some (node, start)
  | S n' =>
      let (node1, p) := read_raw_history node start end_ in
      match p with
      | Raises _ => None
      | Vals vals =>
          match last_value vals with
          | None => None
          | Some last =>
              if xeqb start (T (SourceTimestamp last)) then None
              else if xltb end_ start then None
              else cursor_at n' node1 (T (SourceTimestamp last)) end_
          end
      end
  end.

(** The loop halts: from some amount of fuel on, more fuel changes nothing
    and the run did not stop for lack of it. *)
Definition halts (node : Node) (start end_ : xtime) : Prop :=
  exists n : nat,
    status (node_read_full_history n node start end_) <> OutOfFuel
    /\ forall fuel : nat,
        (n <= fuel)%nat ->
        node_read_full_history fuel node start end_
        = node_read_full_history n node start end_.

End Cache.

(** ** Points of the timeline and the invariant of the representation *)

(** The point [x] is on the inner side of a lower bound [lo], closed or open
    as [b] says; and the same for an upper bound. *)
Definition above (b : Bound) (lo : xtime) (x : Q) : Prop :=
  match lo with
  | NInf => True
  | PInf => False
  | T t => match b with
           | CLOSED => inject_Z t <= x
           | OPEN => inject_Z t < x
           end
  end.

Definition below (b : Bound) (up : xtime) (x : Q) : Prop :=
  match up with
  | NInf => False
  | PInf => True
  | T t => match b with
           | CLOSED => x <= inject_Z t
           | OPEN => x < inject_Z t
           end
  end.

Definition In_atomic (x : Q) (a : Atomic) : Prop :=
  above (left a) (lower a) x /\ below (right a) (upper a) x.

Definition In_interval (x : Q) (i : Interval) : Prop :=
  exists a : Atomic, In a i /\ In_atomic x a.

(** An atomic interval as [from_atomic] lets it into an interval: infinite
    bounds are open and the bounds enclose something. *)
Definition properb (a : Atomic) : bool :=
  (negb (is_inf (lower a)) || Bound_eqb (left a) OPEN)
  && (negb (is_inf (upper a)) || Bound_eqb (right a) OPEN)
  && (xltb (lower a) (upper a)
      || (xeqb (lower a) (upper a)
          && Bound_eqb (left a) CLOSED && Bound_eqb (right a) CLOSED)).

Definition proper (a : Atomic) : Prop := properb a = true.

(** [a] ends before [b] starts and they do not touch. *)
Definition separatedb (a b : Atomic) : bool :=
  xltb (upper a) (lower b)
  || (xeqb (upper a) (lower b)
      && Bound_eqb (right a) OPEN && Bound_eqb (left b) OPEN).

Definition separated (a b : Atomic) : Prop := separatedb a b = true.

(** The invariant of [Interval._intervals]. *)
Definition wf (i : Interval) : Prop :=
  Forall proper i /\ Sorted separated i.

(** The order in which the constructor sorts. *)
Definition key_order (a b : Atomic) : Prop := key_le a b = true.

(** The point is beyond the last atomic interval or in a gap between two
    neighbours. *)
Definition in_gaps (x : Q) (l : list Atomic) : Prop :=
  ~ below (Interval_right l) (Interval_upper l) x
  \/ exists c d, In (c, d) (neighbours l)
                 /\ ~ below (right c) (upper c) x
                 /\ ~ above (left d) (lower d) x.

(** The cached points: a point is in [_history_available_interval] exactly
    when it is in one of the keys. *)
Definition cached (history : dict) (x : Q) : Prop :=
  exists k, In k (keys history) /\ In_interval x k.

(** Two intervals share no point. *)
Definition disjoint (i j : Interval) : Prop :=
  forall x : Q, ~ (In_interval x i /\ In_interval x j).

(** Any two keys at different places of the dict share no point. *)
Definition pairwise_disjoint (ks : list Interval) : Prop :=
  ForallOrdPairs disjoint ks.

(** The open range from [start] to [end] lies in the union of the keys. *)
Definition covered (history : dict) (start end_ : Z) : Prop :=
  forall x : Q, inject_Z start < x < inject_Z end_ -> cached history x.

(** What [_populate_cache] needs of the intervals it is given, and keeps:
    the keys are well formed and pairwise disjoint, and the intervals still
    to insert are atomic, disjoint from every key and from one another. *)
Definition populate_inv (history : dict) (intervals : list Interval) : Prop :=
  Forall wf (keys history)
  /\ pairwise_disjoint (keys history)
  /\ Forall (fun m => (length m <= 1)%nat
                      /\ Forall (fun k => disjoint k m) (keys history))
            intervals
  /\ ForallOrdPairs disjoint intervals.

(** The bounds of an atomic interval lie between [lo] and [hi]. *)
Definition bounds_within (lo hi : xtime) (a : Atomic) : Prop :=
  xleb lo (lower a) = true /\ xleb (upper a) hi = true.

(** What the read path takes from one entry. *)
Definition taken (start end_ : xtime) (entry : Interval * list DataValue)
  : list DataValue :=
  let (atomicint, dvs) := entry in
  let intersect := Interval_and atomicint (open start end_) in
  if Interval_empty intersect then []
  else _get_partial_dvs (Interval_lower intersect)
                        (Interval_upper intersect) dvs.

(** Every key is the open interval between two timestamps. *)
Definition timestamp_keys (history : dict) : Prop :=
  Forall (fun k => exists l u : Z, k = open (T l) (T u)) (keys history).

(** The keys stand in the dict in ascending order: each is a single atomic
    interval or empty, and each ends where the later ones begin or before. *)
Definition keys_ascending (history : dict) : Prop :=
  Forall (fun k => Interval_atomic k = true) (keys history)
  /\ StronglySorted
       (fun k1 k2 => xleb (Interval_upper k1) (Interval_lower k2) = true)
       (keys history).

(** ** Predicates of the specification *)

Definition timestamps (dvs : list DataValue) : list Z :=
  map SourceTimestamp dvs.

(** Sorted ascending by timestamp; equal neighbours allowed. *)
Definition ascending (dvs : list DataValue) : Prop :=
  Sorted Z.le (timestamps dvs).

(** Sorted ascending by timestamp with no timestamp twice. *)
Definition strictly_ascending (dvs : list DataValue) : Prop :=
  Sorted Z.lt (timestamps dvs).

(** Every timestamp lies in the closed range from [lo] to [hi]. *)
Definition within (lo hi : xtime) (dvs : list DataValue) : Prop :=
  Forall
    (fun v =>
       xleb lo (T (SourceTimestamp v)) = true
       /\ xleb (T (SourceTimestamp v)) hi = true)
    dvs.

Section Reachable.

Context {exn Node : Type}.
Variable read_raw_history : Node -> xtime -> xtime -> Node * page exn.

(** The source keeps its side of the contract: a page is sorted ascending
    and holds only points of the requested range. *)
Definition pages_sorted_in_range : Prop :=
  forall (node : Node) (start end_ : xtime) (node' : Node)
         (vals : list DataValue),
    read_raw_history node start end_ = (node', Vals vals) ->
    ascending vals /\ within start end_ vals.

(** The states of [self.history]: empty at [__init__]; after a call of
    [get_history], however it ended and whatever state the node was in; and,
    in the middle of a call, after [_populate_cache] has gone through the
    first [n] of the missing intervals. *)
Inductive reachable : dict -> Prop :=
| reach_init : reachable []
| reach_call (fuel : nat) (node : Node) (history : dict) (start end_ : Z) :
    reachable history ->
    reachable (value (get_history read_raw_history fuel node history
                                  start end_))
| reach_during (fuel : nat) (node : Node) (history : dict) (start end_ : Z)
               (n : nat) :
    reachable history ->
    reachable
      (value (_populate_cache read_raw_history fuel node history
                (firstn n (Interval_iter
                             (_get_missing_intervals history
                                                     (T start) (T end_)))))).

End Reachable.

(** ** Contracts of the source, one by one *)

Section SourceContracts.

Context {exn Node : Type}.
Variable read_raw_history : Node -> xtime -> xtime -> Node * page exn.

(** Every page is sorted ascending. *)
Definition pages_ascending : Prop :=
  forall (node : Node) (start end_ : xtime) (node' : Node)
         (vals : list DataValue),
    read_raw_history node start end_ = (node', Vals vals) ->
    ascending vals.

(** No page holds a point before the [starttime] of its request. *)
Definition pages_from_start : Prop :=
  forall (node : Node) (start end_ : xtime) (node' : Node)
         (vals : list DataValue),
    read_raw_history node start end_ = (node', Vals vals) ->
    Forall (fun v => xleb start (T (SourceTimestamp v)) = true) vals.

(** No page holds a point after the [endtime] of its request. *)
Definition pages_to_end : Prop :=
  forall (node : Node) (start end_ : xtime) (node' : Node)
         (vals : list DataValue),
    read_raw_history node start end_ = (node', Vals vals) ->
    Forall (fun v => xleb (T (SourceTimestamp v)) end_ = true) vals.

(** Every page holds only points of the requested range. *)
Definition pages_in_range : Prop :=
  forall (node : Node) (start end_ : xtime) (node' : Node)
         (vals : list DataValue),
    read_raw_history node start end_ = (node', Vals vals) ->
    within start end_ vals.

(** What holds of an entry that [_populate_cache] stores when the pages of
    the source are sorted: the key is the open interval between two bounds;
    the points are sorted and not before the lower bound when no page starts
    before its [starttime], and not after the upper bound when no page goes
    beyond its [endtime]. *)
Definition entry_as_stored (entry : Interval * list DataValue) : Prop :=
  exists lo up : xtime,
    fst entry = open lo up
    /\ (pages_from_start ->
        ascending (snd entry)
        /\ Forall (fun v => xleb lo (T (SourceTimestamp v)) = true)
                  (snd entry))
    /\ (pages_to_end ->
        Forall (fun v => xleb (T (SourceTimestamp v)) up = true)
               (snd entry)).

(** The state of the node after it has served the page requests [reqs], in
    this order, starting in the state [node]. *)
Definition node_after_requests (node : Node) (reqs : list (xtime * xtime))
  : Node :=
  fold_left (fun n rq => fst (read_raw_history n (fst rq) (snd rq)))
            reqs node.

End SourceContracts.

(** The entry as the data model words it: the points are sorted with no
    timestamp twice, and every timestamp is a point of the key. *)
Definition entry_strict (entry : Interval * list DataValue) : Prop :=
  strictly_ascending (snd entry)
  /\ Forall (fun v => contains (fst entry) (SourceTimestamp v) = true)
            (snd entry).

(** ** Example nodes and runs *)

Definition dv (t : Z) : DataValue := mkDataValue t (100 + t).

(** A node whose history is [data] and which answers a request with the
    first [page_size] points of the requested closed range. *)
Definition paged_node (page_size : nat) (data : list DataValue)
    (node : unit) (start end_ : xtime) : unit * page unit :=
  (tt, Vals (firstn page_size (_get_partial_dvs start end_ data))).

(** The same node, except that it counts the requests it has served and
    raises on request number [k] (counting from 0). *)
Definition failing_node (k : nat) (page_size : nat) (data : list DataValue)
    (node : nat) (start end_ : xtime) : nat * page unit :=
  (S node,
   if Nat.eqb node k then Raises tt
   else Vals (firstn page_size (_get_partial_dvs start end_ data))).

(** A node with points at 3, 6, 10 and 12 and pages of two points; a fresh
    cache is asked for 0..10, then twice for 5..15. *)
Definition node_a : unit -> xtime -> xtime -> unit * page unit :=
  paged_node 2 [dv 3; dv 6; dv 10; dv 12].

Definition after_0_10 : run unit unit dict :=
  get_history node_a 9 tt [] 0 10.
Definition after_5_15 : run unit unit dict :=
  get_history node_a 9 tt (value after_0_10) 5 15.
Definition after_5_15_again : run unit unit dict :=
  get_history node_a 9 tt (value after_5_15) 5 15.

(** A node with points at -3, 3 and 12; a fresh cache is asked for 0..10,
    then for -5..20. *)
Definition node_b : unit -> xtime -> xtime -> unit * page unit :=
  paged_node 5 [dv (-3); dv 3; dv 12].

Definition b_after_0_10 : run unit unit dict :=
  get_history node_b 9 tt [] 0 10.
Definition b_after_m5_20 : run unit unit dict :=
  get_history node_b 9 tt (value b_after_0_10) (-5) 20.

(** A node with points at 10 and 20 that raises on its request number 7; a
    fresh cache is asked for 10..20, 20..30, 0..10, 10..30 and then 0..30. *)
Definition node_c : nat -> xtime -> xtime -> nat * page unit :=
  failing_node 7 5 [dv 10; dv 20].

Definition c_after_10_20 : run unit nat dict :=
  get_history node_c 9 0%nat [] 10 20.
Definition c_after_20_30 : run unit nat dict :=
  get_history node_c 9 (node_after c_after_10_20) (value c_after_10_20) 20 30.
Definition c_after_0_10 : run unit nat dict :=
  get_history node_c 9 (node_after c_after_20_30) (value c_after_20_30) 0 10.
Definition c_after_10_30 : run unit nat dict :=
  get_history node_c 9 (node_after c_after_0_10) (value c_after_0_10) 10 30.
Definition c_after_0_30 : run unit nat dict :=
  get_history node_c 9 (node_after c_after_10_30) (value c_after_10_30) 0 30.

(** A node that answers every request with the one point at 7. *)
Definition node_d : unit -> xtime -> xtime -> unit * page unit :=
  fun _ _ _ => (tt, Vals [dv 7]).

(** A node that ignores [endtime]: it answers a request with the first
    [page_size] points that are not before [starttime]. *)
Definition overshooting_node (page_size : nat) (data : list DataValue)
    (node : unit) (start end_ : xtime) : unit * page unit :=
  (tt,
   Vals (firstn page_size
           (filter (fun v => xleb start (T (SourceTimestamp v))) data))).

(** A node that ignores [starttime]: it answers a request with the first
    [page_size] points that are not after [endtime]. *)
Definition rewinding_node (page_size : nat) (data : list DataValue)
    (node : unit) (start end_ : xtime) : unit * page unit :=
  (tt,
   Vals (firstn page_size
           (filter (fun v => xleb (T (SourceTimestamp v)) end_) data))).

(** A node with points at 3, 6 and 12 and pages of two points that ignores
    [endtime]; a fresh cache is asked for 0..10. *)
Definition node_e : unit -> xtime -> xtime -> unit * page unit :=
  overshooting_node 2 [dv 3; dv 6; dv 12].

Definition e_after_0_10 : run unit unit dict :=
  get_history node_e 9 tt [] 0 10.

(** A node with points at -2 and 3 and pages of two points that ignores
    [starttime]; a fresh cache is asked for 0..10. *)
Definition node_f : unit -> xtime -> xtime -> unit * page unit :=
  rewinding_node 2 [dv (-2); dv 3].

Definition f_after_0_10 : run unit unit dict :=
  get_history node_f 9 tt [] 0 10.

(** A node that answers its first request with those of the points at 9, 2
    and 5, in this order, that lie in the requested range, and every later
    request with nothing: its pages are within range and not sorted. *)
Definition node_g (node : nat) (start end_ : xtime) : nat * page unit :=
  (S node,
   Vals (match node with
         | O => _get_partial_dvs start end_ [dv 9; dv 2; dv 5]
         | _ => []
         end)).

(** [d[k]], when [k] is a key of [d]. *)
Fixpoint dict_get (d : dict) (k : Interval) : option (list DataValue) :=
  match d with
  | [] => None
  | (k', v) :: d' => if Interval_eqb k' k then Some v else dict_get d' k
  end.

(* ================================================================== *)
(** * Part II: theorems                                                *)
(* ================================================================== *)

(** ** A request range that encloses nothing *)

Lemma open_degenerate (start end_ : Z) :
  (start >= end_)%Z -> open (T start) (T end_) = [].
Proof.
  intros H. unfold open, from_atomic, xltb, xeqb. simpl.
  destruct (Z.compare_spec start end_); try lia; reflexivity.
Qed.

Lemma flat_map_nil {A B : Type} (l : list A) :
  flat_map (fun _ : A => @nil B) l = [].
Proof. induction l; simpl; auto. Qed.

Lemma and_atomic_nil_r (i : Interval) : and_atomic i [] = [].
Proof.
  unfold and_atomic. simpl.
  assert (Hup : forall l r lo, from_atomic l lo NInf r = []).
  { intros l r lo. unfold from_atomic, xltb, xeqb.
    destruct lo; reflexivity. }
  destruct (xeqb (Interval_lower i) PInf);
    destruct (xeqb (Interval_upper i) NInf) eqn:E; simpl.
  - unfold xeqb in E. destruct (Interval_upper i); try discriminate. apply Hup.
  - unfold xmin. simpl. destruct (Interval_upper i); simpl; apply Hup.
  - unfold xeqb in E. destruct (Interval_upper i); try discriminate. apply Hup.
  - unfold xmin. simpl. destruct (Interval_upper i); simpl; apply Hup.
Qed.

Lemma Interval_and_nil_r (i : Interval) : Interval_and i [] = [].
Proof.
  unfold Interval_and.
  destruct (Interval_atomic i && Interval_atomic []).
  - apply and_atomic_nil_r.
  - simpl. rewrite flat_map_nil. reflexivity.
Qed.

Section Degenerate.

Context {exn Node : Type}.
Variable read_raw_history : Node -> xtime -> xtime -> Node * page exn.

Lemma missing_degenerate (history : dict) (start end_ : Z) :
  (start >= end_)%Z ->
  _get_missing_intervals history (T start) (T end_) = [].
Proof.
  intros H. unfold _get_missing_intervals.
  rewrite (open_degenerate _ _ H). apply Interval_and_nil_r.
Qed.

Lemma dvs_from_cache_degenerate (history : dict) (start end_ : Z) :
  (start >= end_)%Z -> _dvs_from_cache history (T start) (T end_) = [].
Proof.
  intros H. unfold _dvs_from_cache. rewrite (open_degenerate _ _ H).
  induction history as [|[k dvs] h IH]; simpl; auto.
  rewrite Interval_and_nil_r. simpl. exact IH.
Qed.

(** C5, as the code has it: for [start >= end] the call [get_history(start,
    end)] raises nothing; it ends normally. *)
Theorem get_history_degenerate_no_error
    (fuel : nat) (node : Node) (history : dict) (start end_ : Z) :
  (start >= end_)%Z ->
  status (get_history read_raw_history fuel node history start end_)
  = Finished.
Proof.
  intros H. unfold get_history.
  rewrite (missing_degenerate history _ _ H). reflexivity.
Qed.

(** C10: for [start >= end] the call [get_history(start, end)] raises no
    error, makes no page request, leaves the node and the history dict as
    they were, and the generator it returns yields nothing. *)
Theorem get_history_degenerate_noop
    (fuel : nat) (node : Node) (history : dict) (start end_ : Z) :
  (start >= end_)%Z ->
  let r := get_history read_raw_history fuel node history start end_ in
  status r = Finished
  /\ requests r = []
  /\ node_after r = node
  /\ value r = history
  /\ _dvs_from_cache (value r) (T start) (T end_) = [].
Proof.
  intros H r. subst r. unfold get_history.
  rewrite (missing_degenerate history _ _ H). simpl.
  repeat split. apply dvs_from_cache_degenerate; exact H.
Qed.

End Degenerate.

(** ** The gap fetcher halts *)

Section Fetch.

Context {exn Node : Type}.
Variable read_raw_history : Node -> xtime -> xtime -> Node * page exn.

Local Abbreviation fetch := (node_read_full_history read_raw_history).

Lemma fetch_S (fuel : nat) (node : Node) (start end_ : xtime) :
  fetch (S fuel) node start end_ =
  let (node1, p) := read_raw_history node start end_ in
  match p with
  | Raises e => mkRun (Raised e) [] node1 [(start, end_)]
  | Vals vals =>
      match last_value vals with
      | None => mkRun Finished vals node1 [(start, end_)]
      | Some last =>
          if xeqb start (T (SourceTimestamp last))
          then mkRun Finished vals node1 [(start, end_)]
          else if xltb end_ start
          then mkRun Finished vals node1 [(start, end_)]
          else
            let r := fetch fuel node1 (T (SourceTimestamp last)) end_ in
            mkRun (status r) (vals ++ value r) (node_after r)
                  ((start, end_) :: requests r)
      end
  end.
Proof. reflexivity. Qed.

(** A run that did not stop for lack of fuel is the same with more fuel. *)
Lemma fetch_fuel_mono (n : nat) :
  forall (node : Node) (start end_ : xtime),
    status (fetch n node start end_) <> OutOfFuel ->
    forall fuel, (n <= fuel)%nat ->
                 fetch fuel node start end_ = fetch n node start end_.
Proof.
  induction n as [|n IH]; intros node start end_ Hst fuel Hle.
  - simpl in Hst. congruence.
  - destruct fuel as [|fuel]; [lia|].
    rewrite !fetch_S in *.
    destruct (read_raw_history node start end_) as [node1 [vals|e]]; auto.
    destruct (last_value vals) as [last|]; auto.
    destruct (xeqb start (T (SourceTimestamp last))); auto.
    destruct (xltb end_ start); auto.
    simpl in Hst. cbv zeta.
    rewrite (IH node1 _ _ Hst fuel) by lia. reflexivity.
Qed.

Lemma halts_intro (n : nat) (node : Node) (start end_ : xtime) :
  status (fetch n node start end_) <> OutOfFuel ->
  halts read_raw_history node start end_.
Proof.
  intros H. exists n. split; [exact H|].
  intros fuel Hle. apply fetch_fuel_mono; assumption.
Qed.

(** Halting from the state of a later page request is halting from the
    start. *)
Lemma halts_from_cursor (n : nat) :
  forall (node : Node) (start end_ : xtime) (node_n : Node) (cur : xtime),
    cursor_at read_raw_history n node start end_ = Some (node_n, cur) ->
    halts read_raw_history node_n cur end_ ->
    halts read_raw_history node start end_.
Proof.
  induction n as [|n IH]; intros node start end_ node_n cur Hc Hh.
  - simpl in Hc. inversion Hc; subst. exact Hh.
  - simpl in Hc.
    destruct (read_raw_history node start end_) as [node1 [vals|e]] eqn:Er;
      [|discriminate].
    destruct (last_value vals) as [last|] eqn:El; [|discriminate].
    destruct (xeqb start (T (SourceTimestamp last))) eqn:E1; [discriminate|].
    destruct (xltb end_ start) eqn:E2; [discriminate|].
    destruct (IH _ _ _ _ _ Hc Hh) as [m [Hm _]].
    apply (halts_intro (S m)).
    rewrite fetch_S, Er, El, E1, E2. simpl. exact Hm.
Qed.

Lemma xeqb_refl (a : xtime) : xeqb a a = true.
Proof. destruct a; unfold xeqb; simpl; auto. now rewrite Z.compare_refl. Qed.

(** C4: the loop of [node_read_full_history] halts as soon as some page
    request (a) returns an empty page, or (b) returns a page whose last
    timestamp is the cursor the request was made with, or (c) returns a page
    whose last timestamp is beyond [end]. In cases (a) and (b) it ends
    normally with that request; in case (c) it makes at most one more
    request. *)
Theorem node_read_full_history_halts
    (n : nat) (node : Node) (start end_ : xtime)
    (node_n : Node) (cur : xtime) (node' : Node) (vals : list DataValue) :
  cursor_at read_raw_history n node start end_ = Some (node_n, cur) ->
  read_raw_history node_n cur end_ = (node', Vals vals) ->
  (vals = []
   \/ (exists last, last_value vals = Some last
                    /\ T (SourceTimestamp last) = cur)
   \/ (exists last, last_value vals = Some last
                    /\ xltb end_ (T (SourceTimestamp last)) = true)) ->
  halts read_raw_history node start end_
  /\ (vals = []
      \/ (exists last, last_value vals = Some last
                       /\ T (SourceTimestamp last) = cur) ->
      forall fuel, (n < fuel)%nat ->
                   status (fetch fuel node start end_) = Finished
                   /\ length (requests (fetch fuel node start end_)) = S n).
Proof.
  intros Hc Hr Hcase. split.
  - apply (halts_from_cursor n _ _ _ _ _ Hc).
    destruct Hcase as [He | [[last [Hl He]] | [last [Hl Hgt]]]].
    + apply (halts_intro 1). rewrite fetch_S, Hr. subst vals. simpl.
      discriminate.
    + apply (halts_intro 1). rewrite fetch_S, Hr, Hl, <- He, xeqb_refl.
      simpl. discriminate.
    + apply (halts_intro 2). rewrite fetch_S, Hr, Hl.
      destruct (xeqb cur (T (SourceTimestamp last))); [simpl; discriminate|].
      destruct (xltb end_ cur); [simpl; discriminate|].
      cbv zeta. rewrite fetch_S.
      destruct (read_raw_history node' _ end_) as [node2 [vals2|e]];
        [|simpl; discriminate].
      destruct (last_value vals2) as [last2|]; [|simpl; discriminate].
      destruct (xeqb _ (T (SourceTimestamp last2))); [simpl; discriminate|].
      rewrite Hgt. simpl. discriminate.
  - intros Hab. clear Hcase.
    assert (H1 : forall f, status (fetch (S f) node_n cur end_) = Finished
                 /\ length (requests (fetch (S f) node_n cur end_)) = 1%nat).
    { intros f. rewrite fetch_S, Hr.
      destruct Hab as [He | [last [Hl He]]].
      - subst vals. simpl. auto.
      - rewrite Hl, <- He, xeqb_refl. simpl. auto. }
    clear Hr Hab. revert node start Hc.
    induction n as [|n IH]; intros node start Hc fuel Hlt.
    + simpl in Hc. inversion Hc; subst.
      destruct fuel as [|fuel]; [lia|]. apply H1.
    + destruct fuel as [|fuel]; [lia|].
      simpl in Hc. rewrite fetch_S.
      destruct (read_raw_history node start end_) as [node1 [vals1|e]];
        [|discriminate].
      destruct (last_value vals1) as [last|]; [|discriminate].
      destruct (xeqb start (T (SourceTimestamp last))); [discriminate|].
      destruct (xltb end_ start); [discriminate|].
      simpl. destruct (IH _ _ Hc fuel) as [Hs Hn]; [lia|].
      split; [exact Hs|]. now rewrite Hn.
Qed.

End Fetch.

(** ** The order on bound values *)

Ltac xorder :=
  unfold xleb, xltb, xeqb, xmax, xmin, xltb in *;
  repeat match goal with
         | v : xtime |- _ => destruct v
         end;
  simpl in *;
  repeat match goal with
         | |- context [Z.compare ?a ?b] => destruct (Z.compare_spec a b)
         | H : context [Z.compare ?a ?b] |- _ => destruct (Z.compare_spec a b)
         end;
  simpl in *;
  repeat match goal with
         | H : T _ = T _ |- _ => inversion H; clear H
         end;
  subst;
  try discriminate; try congruence; try lia; auto;
  try (f_equal; lia).

Lemma xleb_refl (a : xtime) : xleb a a = true.
Proof. xorder. Qed.

Lemma xleb_trans (a b c : xtime) :
  xleb a b = true -> xleb b c = true -> xleb a c = true.
Proof. intros; xorder. Qed.

Lemma xeqb_eq (a b : xtime) : xeqb a b = true <-> a = b.
Proof. split; intros; xorder. Qed.

Lemma xltb_xleb (a b : xtime) : xltb a b = true -> xleb a b = true.
Proof. intros; xorder. Qed.

Lemma xltb_false_xleb (a b : xtime) : xltb a b = false -> xleb b a = true.
Proof. intros; xorder. Qed.

Lemma Bound_eqb_eq (a b : Bound) : Bound_eqb a b = true <-> a = b.
Proof. destruct a, b; simpl; split; intros; congruence. Qed.

Lemma Atomic_eqb_eq (a b : Atomic) : Atomic_eqb a b = true <-> a = b.
Proof.
  destruct a as [l1 lo1 up1 r1], b as [l2 lo2 up2 r2]. unfold Atomic_eqb.
  simpl. rewrite !andb_true_iff, !Bound_eqb_eq, !xeqb_eq.
  split; [intros [[[-> ->] ->] ->]; reflexivity|].
  intros H; inversion H; auto.
Qed.

Lemma Interval_eqb_eq (i j : Interval) : Interval_eqb i j = true <-> i = j.
Proof.
  revert j. induction i as [|a i IH]; intros [|b j]; simpl;
    try (split; [discriminate|congruence]); try tauto.
  rewrite andb_true_iff, Atomic_eqb_eq, IH.
  split; [intros [-> ->]; reflexivity|intros H; inversion H; auto].
Qed.

(** ** What the gap fetcher returns when the source keeps its contract *)

Lemma within_weaken (lo lo' hi : xtime) (dvs : list DataValue) :
  xleb lo lo' = true -> within lo' hi dvs -> within lo hi dvs.
Proof.
  intros Hle H. unfold within in *.
  eapply Forall_impl; [|exact H]. simpl. intros v [H1 H2]. split; auto.
  eapply xleb_trans; eauto.
Qed.

Lemma last_value_app (vals : list DataValue) (last : DataValue) :
  last_value vals = Some last -> exists front, vals = front ++ [last].
Proof.
  unfold last_value. intros H.
  destruct (rev vals) as [|v r] eqn:E; [discriminate|].
  inversion H; subst. exists (rev r).
  rewrite <- (rev_involutive vals), E. reflexivity.
Qed.

Lemma ascending_app (l1 l2 : list DataValue) (m : Z) :
  ascending l1 -> ascending l2 ->
  Forall (fun v => (SourceTimestamp v <= m)%Z) l1 ->
  Forall (fun v => (m <= SourceTimestamp v)%Z) l2 ->
  ascending (l1 ++ l2).
Proof.
  unfold ascending, timestamps. intros H1 H2 F1 F2.
  apply Sorted_StronglySorted in H1; [|intros x y z; apply Z.le_trans].
  apply Sorted_StronglySorted in H2; [|intros x y z; apply Z.le_trans].
  apply StronglySorted_Sorted.
  induction l1 as [|a l1 IH]; simpl; [exact H2|].
  simpl in H1. inversion H1; subst. inversion F1; subst.
  constructor; [apply IH; assumption|].
  rewrite map_app. apply Forall_app. split; [assumption|].
  rewrite Forall_map. eapply Forall_impl; [|exact F2]. simpl. intros; lia.
Qed.

Lemma ascending_below_last (front : list DataValue) (last : DataValue) :
  ascending (front ++ [last]) ->
  Forall (fun v => (SourceTimestamp v <= SourceTimestamp last)%Z)
         (front ++ [last]).
Proof.
  unfold ascending, timestamps. intros H.
  apply Sorted_StronglySorted in H; [|intros x y z; apply Z.le_trans].
  induction front as [|a front IH]; simpl in *.
  - constructor; [lia|constructor].
  - inversion H; subst. constructor; [|apply IH; assumption].
    rewrite map_app, Forall_app in H3. destruct H3 as [_ H3].
    simpl in H3. inversion H3; subst. assumption.
Qed.

Section FetchContract.

Context {exn Node : Type}.
Variable read_raw_history : Node -> xtime -> xtime -> Node * page exn.
Hypothesis contract : pages_sorted_in_range read_raw_history.

Lemma fetch_ascending_within (fuel : nat) :
  forall (node : Node) (start end_ : xtime),
    let r := node_read_full_history read_raw_history fuel node start end_ in
    ascending (value r) /\ within start end_ (value r).
Proof.
  induction fuel as [|fuel IH]; intros node start end_; cbv zeta.
  - simpl. split; constructor.
  - simpl.
    destruct (read_raw_history node start end_) as [node1 [vals|e]] eqn:Er;
      [|simpl; split; constructor].
    destruct (contract _ _ _ _ _ Er) as [Hs Hw].
    destruct (last_value vals) as [last|] eqn:El; [|simpl; auto].
    destruct (xeqb start (T (SourceTimestamp last))); [simpl; auto|].
    destruct (xltb end_ start); [simpl; auto|].
    simpl.
    destruct (IH node1 (T (SourceTimestamp last)) end_) as [Hs' Hw'].
    destruct (last_value_app _ _ El) as [front Hf].
    assert (Hlast : xleb start (T (SourceTimestamp last)) = true).
    { unfold within in Hw. rewrite Forall_forall in Hw.
      apply (Hw last). subst vals. apply in_or_app. right. now left. }
    split.
    + apply (ascending_app _ _ (SourceTimestamp last)); auto.
      * subst vals. apply ascending_below_last. exact Hs.
      * unfold within in Hw'. eapply Forall_impl; [|exact Hw'].
        simpl. intros v [H1 _]. xorder.
    + unfold within. apply Forall_app. split; [exact Hw|].
      eapply within_weaken; eauto.
Qed.

End FetchContract.

(** ** Entries stored from sorted pages *)

Section SortedPages.

Context {exn Node : Type}.
Variable read_raw_history : Node -> xtime -> xtime -> Node * page exn.
Hypothesis sorted : pages_ascending read_raw_history.

Lemma fetch_as_stored (fuel : nat) :
  forall (node : Node) (start end_ : xtime),
    let r := node_read_full_history read_raw_history fuel node start end_ in
    (pages_from_start read_raw_history ->
        ascending (value r)
        /\ Forall (fun v => xleb start (T (SourceTimestamp v)) = true)
                  (value r))
    /\ (pages_to_end read_raw_history ->
        Forall (fun v => xleb (T (SourceTimestamp v)) end_ = true)
               (value r)).
Proof.
  induction fuel as [|fuel IH]; intros node start end_; cbv zeta.
  - simpl. split; intros _; repeat constructor.
  - rewrite fetch_S.
    destruct (read_raw_history node start end_) as [node1 [vals|e]] eqn:Er.
    + assert (Hone :
        (pages_from_start read_raw_history ->
            ascending vals
            /\ Forall (fun v => xleb start (T (SourceTimestamp v)) = true)
                      vals)
        /\ (pages_to_end read_raw_history ->
            Forall (fun v => xleb (T (SourceTimestamp v)) end_ = true)
                   vals)).
      { split.
        - intros Hf. split; [exact (sorted _ _ _ _ _ Er)|].
          exact (Hf _ _ _ _ _ Er).
        - intros Ht. exact (Ht _ _ _ _ _ Er). }
      destruct (last_value vals) as [last|] eqn:El; [|exact Hone].
      destruct (xeqb start (T (SourceTimestamp last))); [exact Hone|].
      destruct (xltb end_ start); [exact Hone|].
      cbv zeta. simpl.
      destruct (IH node1 (T (SourceTimestamp last)) end_)
        as [Hfrom Hto].
      destruct Hone as [Hfrom1 Hto1].
      split.
      * intros Hf. destruct (Hfrom Hf) as [Ha Hl].
        destruct (Hfrom1 Hf) as [Ha1 Hl1].
        destruct (last_value_app _ _ El) as [front Hfr].
        assert (Hlast : xleb start (T (SourceTimestamp last)) = true).
        { rewrite Forall_forall in Hl1. apply Hl1. subst vals.
          apply in_or_app. right. now left. }
        split.
        -- apply (ascending_app _ _ (SourceTimestamp last)); auto.
           ++ subst vals. apply ascending_below_last. exact Ha1.
           ++ eapply Forall_impl; [|exact Hl]. simpl. intros v Hv.
              xorder.
        -- apply Forall_app. split; [exact Hl1|].
           eapply Forall_impl; [|exact Hl]. simpl. intros v Hv.
           eapply xleb_trans; eauto.
      * intros Ht. apply Forall_app. split; [exact (Hto1 Ht)|exact (Hto Ht)].
    + simpl. split; intros _; repeat constructor.
Qed.

Lemma dict_set_as_stored (d : dict) (k : Interval) (v : list DataValue) :
  Forall (entry_as_stored read_raw_history) d ->
  entry_as_stored read_raw_history (k, v) ->
  Forall (entry_as_stored read_raw_history) (dict_set d k v).
Proof.
  intros Hd Hk. induction d as [|[k' v'] d IH]; simpl.
  - constructor; [exact Hk|constructor].
  - inversion Hd; subst. destruct (Interval_eqb k' k) eqn:E.
    + apply Interval_eqb_eq in E. subst k'. constructor; assumption.
    + constructor; [assumption|apply IH; assumption].
Qed.

Lemma populate_as_stored (fuel : nat) (intervals : list Interval) :
  forall (node : Node) (history : dict),
    Forall (entry_as_stored read_raw_history) history ->
    Forall (entry_as_stored read_raw_history)
      (value (_populate_cache read_raw_history fuel node history intervals)).
Proof.
  induction intervals as [|atomic_int rest IH]; intros node history Hh.
  - exact Hh.
  - simpl.
    pose proof (fetch_as_stored fuel node
                  (Interval_lower atomic_int) (Interval_upper atomic_int))
      as [Hfrom Hto].
    destruct (status (node_read_full_history read_raw_history fuel node
                        (Interval_lower atomic_int)
                        (Interval_upper atomic_int))); simpl; auto.
    apply IH. apply dict_set_as_stored; [exact Hh|].
    exists (Interval_lower atomic_int), (Interval_upper atomic_int).
    simpl. auto.
Qed.

(** C7, as the code has it: when every page of the source is sorted
    ascending, every entry of the cache, at any time, has as its key the open
    interval between two bounds.  The stored sequence is sorted ascending (a
    timestamp may repeat), and no stored timestamp is before the lower
    bound, when no page holds a point before the [starttime] of its request;
    no stored timestamp is after the upper bound when no page holds a point
    after the [endtime] of its request.  The bounds themselves may occur. *)
Theorem cache_entries_from_sorted_pages (history : dict) :
  reachable read_raw_history history ->
  Forall (entry_as_stored read_raw_history) history.
Proof.
  intros Hr.
  induction Hr as [|fuel node h start end_ Hr IH
                   |fuel node h start end_ n Hr IH].
  - constructor.
  - unfold get_history.
    destruct (negb (Interval_empty _)); [|exact IH].
    apply populate_as_stored. exact IH.
  - apply populate_as_stored. exact IH.
Qed.

End SortedPages.

(** ** The interval algebra is correct *)

Ltac zcases :=
  repeat (match goal with
          | |- context [Z.compare ?a ?a] => rewrite (Z.compare_refl a)
          | H : context [Z.compare ?a ?a] |- _ =>
              rewrite (Z.compare_refl a) in H
          | |- context [Z.compare ?a ?b] =>
              destruct (Z.compare_spec a b); try subst a; try lia
          | H : context [Z.compare ?a ?b] |- _ =>
              destruct (Z.compare_spec a b); try subst a; try lia
          end; simpl in *; try discriminate).

Ltac to_Q :=
  repeat match goal with
         | H : (_ < _)%Z |- _ => rewrite Zlt_Qlt in H
         | H : (_ <= _)%Z |- _ => rewrite Zle_Qle in H
         end.

Ltac qsplit x :=
  repeat match goal with
         | |- context [inject_Z ?t] =>
             lazymatch goal with
             | _ : x < inject_Z t |- _ => fail
             | _ : inject_Z t < x |- _ => fail
             | _ : x == inject_Z t |- _ => fail
             | _ => destruct (Q_dec x (inject_Z t)) as [[?|?]|?]
             end
         | _ : context [inject_Z ?t] |- _ =>
             lazymatch goal with
             | _ : x < inject_Z t |- _ => fail
             | _ : inject_Z t < x |- _ => fail
             | _ : x == inject_Z t |- _ => fail
             | _ => destruct (Q_dec x (inject_Z t)) as [[?|?]|?]
             end
         end.

Ltac qorder :=
  unfold proper, properb, separated, separatedb, In_atomic in *;
  unfold above, below, xleb, xltb, xeqb, xmax, xmin, xltb,
    Bound_eqb, Bound_invert, is_inf in *;
  repeat match goal with
         | v : xtime |- _ => destruct v
         | b : Bound |- _ => destruct b
         end;
  simpl in *; try discriminate;
  zcases;
  repeat match goal with
         | H : T _ = T _ |- _ => inversion H; clear H
         end;
  subst; zcases;
  try discriminate; try congruence; try tauto;
  try (repeat split; reflexivity);
  to_Q;
  try match goal with x : Q |- _ => qsplit x end;
  try (intuition (try discriminate; try congruence; lra)).

Lemma merged_lower (a b : Atomic) :
  lower (merged a b) =
  if xeqb (lower a) (lower b) then lower a else xmin (lower a) (lower b).
Proof.
  unfold merged. destruct (xeqb (lower a) (lower b));
    destruct (xeqb (upper a) (upper b)); reflexivity.
Qed.

Lemma merged_left (a b : Atomic) :
  left (merged a b) =
  if xeqb (lower a) (lower b)
  then if Bound_eqb (left a) CLOSED then left a else left b
  else if xeqb (xmin (lower a) (lower b)) (lower a) then left a else left b.
Proof.
  unfold merged. destruct (xeqb (lower a) (lower b));
    destruct (xeqb (upper a) (upper b)); reflexivity.
Qed.

Lemma merged_upper (a b : Atomic) :
  upper (merged a b) =
  if xeqb (upper a) (upper b) then upper a else xmax (upper a) (upper b).
Proof.
  unfold merged. destruct (xeqb (lower a) (lower b));
    destruct (xeqb (upper a) (upper b)); reflexivity.
Qed.

Lemma merged_right (a b : Atomic) :
  right (merged a b) =
  if xeqb (upper a) (upper b)
  then if Bound_eqb (right a) CLOSED then right a else right b
  else if xeqb (xmax (upper a) (upper b)) (upper a) then right a else right b.
Proof.
  unfold merged. destruct (xeqb (lower a) (lower b));
    destruct (xeqb (upper a) (upper b)); reflexivity.
Qed.

Lemma merged_above (a b : Atomic) (x : Q) :
  above (left (merged a b)) (lower (merged a b)) x
  <-> above (left a) (lower a) x \/ above (left b) (lower b) x.
Proof.
  rewrite merged_lower, merged_left.
  destruct a as [la loa upa ra], b as [lb lob upb rb]. simpl.
  clear upa ra upb rb.
  qorder.
Qed.

Lemma merged_below (a b : Atomic) (x : Q) :
  below (right (merged a b)) (upper (merged a b)) x
  <-> below (right a) (upper a) x \/ below (right b) (upper b) x.
Proof.
  rewrite merged_upper, merged_right.
  destruct a as [la loa upa ra], b as [lb lob upb rb]. simpl.
  clear loa la lob lb.
  qorder.
Qed.

Lemma merged_lower_sorted (a b : Atomic) :
  key_le a b = true ->
  lower (merged a b) = lower a /\ left (merged a b) = left a.
Proof.
  rewrite merged_lower, merged_left. unfold key_le.
  destruct a as [la loa upa ra], b as [lb lob upb rb]. simpl.
  clear upa ra upb rb. intros H.
  qorder.
Qed.



(** When the two may be merged, the merged interval is their union. *)
Lemma merged_spec (a b : Atomic) (x : Q) :
  key_le a b = true -> mergeable a b = true ->
  (In_atomic x (merged a b) <-> In_atomic x a \/ In_atomic x b).
Proof.
  intros Hk Hm. unfold In_atomic at 1. rewrite merged_above, merged_below.
  unfold key_le, mergeable in *.
  destruct a as [la loa upa ra], b as [lb lob upb rb]. simpl in *.
  unfold In_atomic; simpl.
  destruct (xltb loa lob || xeqb loa lob && Bound_eqb la CLOSED) eqn:Ef;
    simpl in Hm.
  - set (P := below rb upb x). clearbody P. clear upb rb.
    qorder.
  - clear Hm.
    assert (E : la = OPEN /\ lb = OPEN /\ loa = lob) by (clear x; qorder).
    destruct E as [-> [-> ->]]. tauto.
Qed.

Lemma merged_proper (a b : Atomic) :
  key_le a b = true -> proper a -> proper b -> proper (merged a b).
Proof.
  intros Hk Ha Hb. unfold proper, properb in *.
  rewrite merged_upper, merged_right.
  destruct (merged_lower_sorted a b Hk) as [-> ->].
  unfold key_le in Hk.
  destruct a as [la loa upa ra], b as [lb lob upb rb]. simpl in *.
  qorder.
Qed.

Lemma not_mergeable_separated (a b : Atomic) :
  key_le a b = true -> proper a -> proper b -> mergeable a b = false ->
  separated a b.
Proof.
  intros Hk Ha Hb Hm.
  unfold key_le, mergeable, separated, separatedb, proper, properb in *.
  destruct a as [la loa upa ra], b as [lb lob upb rb]. simpl in *.
  destruct (xltb loa lob || xeqb loa lob && Bound_eqb la CLOSED) eqn:Ef;
    simpl in Hm.
  - clear Hb upb rb. qorder.
  - exfalso. qorder.
Qed.

(** ** Sorting by key *)

Lemma key_le_total (a b : Atomic) : key_le a b = false -> key_le b a = true.
Proof.
  unfold key_le. destruct a as [la loa upa ra], b as [lb lob upb rb]. simpl.
  clear upa ra upb rb. intros H. qorder.
Qed.

Lemma key_le_trans (a b c : Atomic) :
  key_le a b = true -> key_le b c = true -> key_le a c = true.
Proof.
  unfold key_le.
  destruct a as [la loa upa ra], b as [lb lob upb rb], c as [lc loc upc rc].
  simpl. clear upa ra upb rb upc rc. intros H1 H2. qorder.
Qed.

Lemma key_le_same_key (a a' b : Atomic) :
  lower a' = lower a -> left a' = left a ->
  key_le a b = true -> key_le a' b = true.
Proof. unfold key_le. intros -> ->. auto. Qed.

Lemma insert_by_key_perm (a : Atomic) (l : list Atomic) :
  Permutation (insert_by_key a l) (a :: l).
Proof.
  induction l as [|b l IH]; simpl; auto.
  destruct (key_le a b); auto.
  rewrite IH. apply perm_swap.
Qed.

Lemma sort_by_key_perm (l : list Atomic) : Permutation (sort_by_key l) l.
Proof.
  induction l as [|a l IH]; simpl; auto.
  rewrite insert_by_key_perm. auto.
Qed.

Lemma insert_by_key_sorted (a : Atomic) (l : list Atomic) :
  StronglySorted key_order l -> StronglySorted key_order (insert_by_key a l).
Proof.
  induction l as [|b l IH]; intros Hs; simpl.
  - repeat constructor.
  - inversion Hs; subst. destruct (key_le a b) eqn:E.
    + constructor; [exact Hs|]. constructor; [exact E|].
      eapply Forall_impl; [|exact H2]. intros c Hc.
      eapply key_le_trans; eauto.
    + constructor; [apply IH; assumption|].
      apply key_le_total in E.
      eapply Permutation_Forall; [symmetry; apply insert_by_key_perm|].
      constructor; assumption.
Qed.

Lemma sort_by_key_sorted (l : list Atomic) :
  StronglySorted key_order (sort_by_key l).
Proof.
  induction l as [|a l IH]; simpl; [constructor|].
  apply insert_by_key_sorted. exact IH.
Qed.

(** ** Merging neighbours *)

Lemma In_interval_cons (x : Q) (a : Atomic) (l : list Atomic) :
  In_interval x (a :: l) <-> In_atomic x a \/ In_interval x l.
Proof.
  unfold In_interval. simpl. split.
  - intros [b [[<-|Hb] Hx]]; eauto.
  - intros [Hx|[b [Hb Hx]]]; eauto.
Qed.

Lemma In_interval_nil (x : Q) : ~ In_interval x [].
Proof. intros [a [[] _]]. Qed.

Lemma In_interval_app (x : Q) (l1 l2 : list Atomic) :
  In_interval x (l1 ++ l2) <-> In_interval x l1 \/ In_interval x l2.
Proof.
  unfold In_interval. split.
  - intros [a [Ha Hx]]. apply in_app_or in Ha. destruct Ha; eauto.
  - intros [[a [Ha Hx]]|[a [Ha Hx]]]; exists a; split; auto;
      apply in_or_app; auto.
Qed.

Lemma In_interval_perm (x : Q) (l1 l2 : list Atomic) :
  Permutation l1 l2 -> In_interval x l1 <-> In_interval x l2.
Proof.
  intros Hp. unfold In_interval. split; intros [a [Ha Hx]]; exists a;
    split; auto.
  - eapply Permutation_in; eauto.
  - eapply Permutation_in; [symmetry|]; eauto.
Qed.

Lemma separated_same_key (a b b' : Atomic) :
  lower b' = lower b -> left b' = left b ->
  separated a b -> separated a b'.
Proof. unfold separated, separatedb. intros -> ->. auto. Qed.

Lemma merge_from_spec (rest : list Atomic) :
  forall current : Atomic,
    proper current -> Forall proper rest ->
    StronglySorted key_order (current :: rest) ->
    wf (merge_from current rest)
    /\ (forall x, In_interval x (merge_from current rest)
                  <-> In_atomic x current \/ In_interval x rest)
    /\ exists h t, merge_from current rest = h :: t
                   /\ lower h = lower current /\ left h = left current.
Proof.
  induction rest as [|successor rest IH]; intros current Hc Hr Hs; simpl.
  - split; [|split].
    + split; repeat constructor. exact Hc.
    + intros x. rewrite In_interval_cons. reflexivity.
    + eauto.
  - inversion Hr as [|? ? Hsucc Hr']; subst.
    inversion Hs as [|? ? Hs' Hall]; subst.
    inversion Hall as [|? ? Hk Hall']; subst.
    destruct (mergeable current successor) eqn:Em.
    + destruct (merged_lower_sorted _ _ Hk) as [Elo Ele].
      destruct (IH (merged current successor)) as [Hwf [Hin [h [t [E [E1 E2]]]]]].
      * apply merged_proper; assumption.
      * assumption.
      * inversion Hs'; subst. constructor; [assumption|].
        eapply Forall_impl; [|exact Hall']. intros c Hkc.
        eapply key_le_same_key; eauto.
      * split; [exact Hwf|]. split.
        -- intros x. rewrite Hin, merged_spec, In_interval_cons by assumption.
           tauto.
        -- exists h, t. repeat split; congruence.
    + destruct (IH successor) as [[Hp Hsep] [Hin [h [t [E [E1 E2]]]]]];
        try assumption.
      split; [|split].
      * split; [constructor; assumption|].
        constructor; [exact Hsep|]. rewrite E. constructor.
        eapply separated_same_key; eauto.
        apply not_mergeable_separated; assumption.
      * intros x. rewrite In_interval_cons, Hin, In_interval_cons. tauto.
      * eauto.
Qed.

Lemma merge_sorted_spec (l : list Atomic) :
  Forall proper l -> StronglySorted key_order l ->
  wf (merge_sorted l)
  /\ forall x, In_interval x (merge_sorted l) <-> In_interval x l.
Proof.
  intros Hp Hs. destruct l as [|a l]; simpl.
  - split; [split; constructor|tauto].
  - inversion Hp; subst.
    destruct (merge_from_spec l a) as [Hwf [Hin _]]; auto.
    split; [exact Hwf|]. intros x. rewrite Hin, In_interval_cons. tauto.
Qed.

Lemma gather_spec (intervals : list Interval) (a : Atomic) :
  In a (flat_map (fun i => if Interval_empty i then [] else i) intervals)
  <-> exists i, In i intervals /\ In a i.
Proof.
  rewrite in_flat_map. split; intros [i [Hi Ha]]; exists i; split; auto.
  - destruct i; simpl in *; auto.
  - destruct i; simpl in *; auto.
Qed.

(** The constructor: the result is well formed and is the union of the
    arguments. *)
Lemma Interval_init_spec (intervals : list Interval) :
  Forall (Forall proper) intervals ->
  wf (Interval_init intervals)
  /\ forall x, In_interval x (Interval_init intervals)
               <-> exists i, In i intervals /\ In_interval x i.
Proof.
  intros Hp. unfold Interval_init.
  set (l := flat_map _ intervals).
  assert (Hl : Forall proper l).
  { apply Forall_forall. intros a Ha. apply gather_spec in Ha.
    destruct Ha as [i [Hi Ha]].
    rewrite Forall_forall in Hp. specialize (Hp i Hi).
    rewrite Forall_forall in Hp. auto. }
  destruct (merge_sorted_spec (sort_by_key l)) as [Hwf Hin].
  - eapply Permutation_Forall; [symmetry; apply sort_by_key_perm|exact Hl].
  - apply sort_by_key_sorted.
  - split; [exact Hwf|]. intros x.
    rewrite Hin, (In_interval_perm x _ _ (sort_by_key_perm l)).
    unfold In_interval. split.
    + intros [a [Ha Hx]]. apply gather_spec in Ha.
      destruct Ha as [i [Hi Ha]]. eauto.
    + intros [i [Hi [a [Ha Hx]]]]. exists a. split; auto.
      apply gather_spec. eauto.
Qed.

(** ** [from_atomic] and intersection *)

Lemma In_interval_singleton (x : Q) (a : Atomic) :
  In_interval x [a] <-> In_atomic x a.
Proof.
  rewrite In_interval_cons. pose proof (In_interval_nil x). tauto.
Qed.

Lemma from_atomic_spec (l : Bound) (lo up : xtime) (r : Bound) (x : Q) :
  In_interval x (from_atomic l lo up r) <-> above l lo x /\ below r up x.
Proof.
  unfold from_atomic.
  destruct (xltb lo up
            || xeqb lo up
               && Bound_eqb (if is_inf lo then OPEN else l) CLOSED
               && Bound_eqb (if is_inf up then OPEN else r) CLOSED) eqn:E.
  - rewrite In_interval_singleton. unfold In_atomic. simpl.
    clear E. destruct lo, up; simpl; tauto.
  - split; [intros H; destruct (In_interval_nil _ H)|].
    intros [H1 H2]. exfalso. qorder.
Qed.

Lemma from_atomic_proper (l : Bound) (lo up : xtime) (r : Bound) :
  Forall proper (from_atomic l lo up r).
Proof.
  unfold from_atomic.
  destruct (xltb lo up
            || xeqb lo up
               && Bound_eqb (if is_inf lo then OPEN else l) CLOSED
               && Bound_eqb (if is_inf up then OPEN else r) CLOSED) eqn:E;
    constructor; [|constructor].
  unfold proper, properb. simpl. rewrite E.
  destruct lo, up; simpl; auto; destruct l, r; auto.
Qed.

Lemma from_atomic_atomic (l : Bound) (lo up : xtime) (r : Bound) :
  (length (from_atomic l lo up r) <= 1)%nat.
Proof. unfold from_atomic. destruct (_ || _); simpl; lia. Qed.

Lemma wf_short (i : Interval) :
  Forall proper i -> (length i <= 1)%nat -> wf i.
Proof.
  intros Hp Hl. split; [exact Hp|].
  destruct i as [|a [|b i]]; simpl in Hl; try lia; repeat constructor.
Qed.

Lemma from_atomic_wf (l : Bound) (lo up : xtime) (r : Bound) :
  wf (from_atomic l lo up r).
Proof.
  apply wf_short; [apply from_atomic_proper|apply from_atomic_atomic].
Qed.

Lemma from_atomic_of_proper (a : Atomic) :
  proper a -> from_atomic (left a) (lower a) (upper a) (right a) = [a].
Proof.
  destruct a as [l lo up r]. unfold proper, properb, from_atomic. simpl.
  intros H.
  assert (E1 : (if is_inf lo then OPEN else l) = l) by qorder.
  assert (E2 : (if is_inf up then OPEN else r) = r) by qorder.
  rewrite E1, E2.
  apply andb_true_iff in H. destruct H as [_ H]. rewrite H. reflexivity.
Qed.

Lemma Interval_iter_of_proper (i : Interval) :
  Forall proper i -> Interval_iter i = map (fun a => [a]) i.
Proof.
  unfold Interval_iter. induction 1; simpl; auto.
  rewrite from_atomic_of_proper by assumption. f_equal. assumption.
Qed.

Lemma inter_above (la lb : Bound) (loa lob : xtime) (x : Q) :
  above
    (if xeqb loa lob then (if Bound_eqb la OPEN then la else lb)
     else if xeqb (xmax loa lob) loa then la else lb)
    (if xeqb loa lob then loa else xmax loa lob) x
  <-> above la loa x /\ above lb lob x.
Proof. qorder. Qed.

Lemma inter_below (ra rb : Bound) (upa upb : xtime) (x : Q) :
  below
    (if xeqb upa upb then (if Bound_eqb ra OPEN then ra else rb)
     else if xeqb (xmin upa upb) upa then ra else rb)
    (if xeqb upa upb then upa else xmin upa upb) x
  <-> below ra upa x /\ below rb upb x.
Proof. qorder. Qed.

Lemma and_atomic_hull (i j : Interval) (x : Q) :
  In_interval x (and_atomic i j)
  <-> (above (Interval_left i) (Interval_lower i) x
       /\ above (Interval_left j) (Interval_lower j) x)
      /\ (below (Interval_right i) (Interval_upper i) x
          /\ below (Interval_right j) (Interval_upper j) x).
Proof.
  rewrite <- inter_above, <- inter_below. unfold and_atomic.
  destruct (xeqb (Interval_lower i) (Interval_lower j));
    destruct (xeqb (Interval_upper i) (Interval_upper j));
    apply from_atomic_spec.
Qed.

Lemma short_hull (i : Interval) (x : Q) :
  (length i <= 1)%nat ->
  In_interval x i
  <-> above (Interval_left i) (Interval_lower i) x
      /\ below (Interval_right i) (Interval_upper i) x.
Proof.
  destruct i as [|a [|b i]]; simpl; intros Hl; try lia.
  - split; [intros H; destruct (In_interval_nil _ H)|tauto].
  - rewrite In_interval_singleton. reflexivity.
Qed.

Lemma and_atomic_spec (i j : Interval) (x : Q) :
  (length i <= 1)%nat -> (length j <= 1)%nat ->
  In_interval x (and_atomic i j) <-> In_interval x i /\ In_interval x j.
Proof.
  intros Hi Hj.
  rewrite and_atomic_hull, (short_hull i x Hi), (short_hull j x Hj). tauto.
Qed.

Lemma and_atomic_wf (i j : Interval) : wf (and_atomic i j).
Proof.
  unfold and_atomic.
  destruct (xeqb (Interval_lower i) (Interval_lower j));
    destruct (xeqb (Interval_upper i) (Interval_upper j));
    apply from_atomic_wf.
Qed.

(** Intersection: the result is well formed and is the intersection. *)
Lemma Interval_and_spec (i j : Interval) :
  Forall proper i -> Forall proper j ->
  wf (Interval_and i j)
  /\ forall x, In_interval x (Interval_and i j)
               <-> In_interval x i /\ In_interval x j.
Proof.
  intros Hi Hj. unfold Interval_and.
  destruct (Interval_atomic i && Interval_atomic j) eqn:E.
  - apply andb_true_iff in E. destruct E as [E1 E2].
    unfold Interval_atomic in *. apply Nat.leb_le in E1, E2.
    split; [apply and_atomic_wf|]. intros x. apply and_atomic_spec; auto.
  - rewrite (Interval_iter_of_proper i Hi), (Interval_iter_of_proper j Hj).
    set (pieces := flat_map _ _).
    assert (Hpieces : forall p, In p pieces
                      <-> exists a b, In a i /\ In b j
                                      /\ p = and_atomic [a] [b]).
    { intros p. unfold pieces. rewrite in_flat_map. split.
      - intros [ia [Hia Hp]]. apply in_map_iff in Hia.
        destruct Hia as [a [<- Ha]]. apply in_map_iff in Hp.
        destruct Hp as [jb [<- Hjb]]. apply in_map_iff in Hjb.
        destruct Hjb as [b [<- Hb]]. eauto 6.
      - intros [a [b [Ha [Hb ->]]]]. exists [a]. split.
        + apply in_map_iff. eauto.
        + apply in_map_iff. exists [b]. split; auto.
          apply in_map_iff. eauto. }
    destruct (Interval_init_spec pieces) as [Hwf Hin].
    + apply Forall_forall. intros p Hp. apply Hpieces in Hp.
      destruct Hp as [a [b [_ [_ ->]]]]. apply and_atomic_wf.
    + split; [exact Hwf|]. intros x. rewrite Hin. split.
      * intros [p [Hp Hx]]. apply Hpieces in Hp.
        destruct Hp as [a [b [Ha [Hb ->]]]].
        apply and_atomic_spec in Hx; simpl; auto.
        rewrite !In_interval_singleton in Hx. destruct Hx.
        split; [exists a|exists b]; auto.
      * intros [[a [Ha Hxa]] [b [Hb Hxb]]].
        exists (and_atomic [a] [b]). split; [apply Hpieces; eauto 6|].
        apply and_atomic_spec; simpl; auto.
        rewrite !In_interval_singleton. auto.
Qed.

(** ** Complement *)

Lemma above_dec (b : Bound) (lo : xtime) (x : Q) :
  above b lo x \/ ~ above b lo x.
Proof.
  destruct lo as [|t|]; simpl; auto.
  destruct b; [destruct (Qlt_le_dec x (inject_Z t))
              |destruct (Qlt_le_dec (inject_Z t) x)]; auto; right; lra.
Qed.

Lemma below_dec (b : Bound) (up : xtime) (x : Q) :
  below b up x \/ ~ below b up x.
Proof.
  destruct up as [|t|]; simpl; auto.
  destruct b; [destruct (Qlt_le_dec (inject_Z t) x)
              |destruct (Qlt_le_dec x (inject_Z t))]; auto; right; lra.
Qed.

Lemma below_invert (l : Bound) (lo : xtime) (x : Q) :
  below (Bound_invert l) lo x <-> ~ above l lo x.
Proof. qorder. Qed.

Lemma above_invert (r : Bound) (up : xtime) (x : Q) :
  above (Bound_invert r) up x <-> ~ below r up x.
Proof. qorder. Qed.

Lemma proper_before (a : Atomic) (x : Q) :
  proper a -> ~ above (left a) (lower a) x -> below (right a) (upper a) x.
Proof. destruct a as [l lo up r]. simpl. intros Hp H. qorder. Qed.

Lemma separated_before (a b : Atomic) (x : Q) :
  separated a b -> below (right a) (upper a) x ->
  ~ above (left b) (lower b) x.
Proof.
  destruct a as [la loa upa ra], b as [lb lob upb rb].
  unfold separated, separatedb. simpl.
  clear la loa upb rb. intros Hs H. qorder.
Qed.

Lemma Interval_upper_cons (a : Atomic) (l : list Atomic) :
  l <> [] ->
  Interval_upper (a :: l) = Interval_upper l
  /\ Interval_right (a :: l) = Interval_right l.
Proof.
  intros Hl. unfold Interval_upper, Interval_right. simpl.
  destruct (rev l) as [|b r] eqn:E.
  - apply (f_equal (@rev Atomic)) in E. rewrite rev_involutive in E.
    simpl in E. contradiction.
  - simpl. auto.
Qed.

Lemma in_gaps_cons (x : Q) (a b : Atomic) (l : list Atomic) :
  in_gaps x (a :: b :: l)
  <-> (~ below (right a) (upper a) x /\ ~ above (left b) (lower b) x)
      \/ in_gaps x (b :: l).
Proof.
  unfold in_gaps.
  destruct (Interval_upper_cons a (b :: l)) as [-> ->]; [discriminate|].
  change (neighbours (a :: b :: l)) with ((a, b) :: neighbours (b :: l)).
  split.
  - intros [H|[c [d [[E|H] Hx]]]]; auto.
    + inversion E; subst. auto.
    + right. right. eauto.
  - intros [H|[H|[c [d [H Hx]]]]]; auto.
    + right. exists a, b. split; [now left|auto].
    + right. exists c, d. split; [now right|auto].
Qed.

Lemma wf_cons_inv (a b : Atomic) (l : list Atomic) :
  wf (a :: b :: l) -> proper a /\ separated a b /\ wf (b :: l).
Proof.
  intros [Hp Hs]. inversion Hp; subst. inversion Hs; subst.
  inversion H4; subst. repeat split; assumption.
Qed.

Lemma before_first (x : Q) (l : list Atomic) :
  forall a, wf (a :: l) -> ~ above (left a) (lower a) x ->
            ~ In_interval x (a :: l) /\ ~ in_gaps x (a :: l).
Proof.
  induction l as [|b l IH]; intros a Hwf Ha.
  - destruct Hwf as [Hp _]. inversion Hp as [|? ? Hpa _]; subst.
    rewrite In_interval_singleton. unfold In_atomic, in_gaps. simpl.
    pose proof (proper_before a x Hpa Ha) as Hb. split; [tauto|].
    intros [Hn|[c [d [[] _]]]]. auto.
  - destruct (wf_cons_inv _ _ _ Hwf) as [Hp [Hs Hwf']].
    pose proof (proper_before a x Hp Ha) as Hb.
    pose proof (separated_before a b x Hs Hb) as Hab.
    destruct (IH b Hwf' Hab) as [H1 H2].
    rewrite In_interval_cons, in_gaps_cons. unfold In_atomic. tauto.
Qed.

Lemma after_first (x : Q) (l : list Atomic) :
  forall a, wf (a :: l) -> above (left a) (lower a) x ->
            (~ In_interval x (a :: l) <-> in_gaps x (a :: l)).
Proof.
  induction l as [|b l IH]; intros a Hwf Ha.
  - rewrite In_interval_singleton. unfold In_atomic, in_gaps. simpl.
    split; [tauto|]. intros [Hn|[c [d [[] _]]]]. tauto.
  - destruct (wf_cons_inv _ _ _ Hwf) as [Hp [Hs Hwf']].
    rewrite In_interval_cons, in_gaps_cons. unfold In_atomic.
    destruct (below_dec (right a) (upper a) x) as [Hb|Hb].
    + pose proof (separated_before a b x Hs Hb) as Hab.
      destruct (before_first x l b Hwf' Hab) as [H1 H2]. tauto.
    + destruct (above_dec (left b) (lower b) x) as [Hab|Hab].
      * specialize (IH b Hwf' Hab). tauto.
      * destruct (before_first x l b Hwf' Hab) as [H1 H2]. tauto.
Qed.

(** Complement: the result is well formed and is the complement. *)
Lemma Interval_invert_spec (i : Interval) :
  wf i ->
  wf (Interval_invert i)
  /\ forall x, In_interval x (Interval_invert i) <-> ~ In_interval x i.
Proof.
  intros Hwf. unfold Interval_invert.
  set (gaps := map _ (neighbours i)).
  destruct (Interval_init_spec
              (from_atomic OPEN NInf (Interval_lower i)
                           (Bound_invert (Interval_left i))
               :: from_atomic (Bound_invert (Interval_right i))
                              (Interval_upper i) PInf OPEN
               :: gaps)) as [Hw Hin].
  { constructor; [apply from_atomic_proper|].
    constructor; [apply from_atomic_proper|].
    apply Forall_forall. intros p Hp. unfold gaps in Hp.
    apply in_map_iff in Hp. destruct Hp as [[c d] [<- _]].
    apply from_atomic_proper. }
  split; [exact Hw|]. intros x. rewrite Hin. clear Hin Hw.
  assert (Hpieces :
    (exists p, In p (from_atomic OPEN NInf (Interval_lower i)
                                 (Bound_invert (Interval_left i))
                     :: from_atomic (Bound_invert (Interval_right i))
                                    (Interval_upper i) PInf OPEN
                     :: gaps) /\ In_interval x p)
    <-> ~ above (Interval_left i) (Interval_lower i) x \/ in_gaps x i).
  { unfold in_gaps. split.
    - intros [p [[<-|[<-|Hp]] Hx]].
      + apply from_atomic_spec in Hx. rewrite below_invert in Hx. tauto.
      + apply from_atomic_spec in Hx. rewrite above_invert in Hx. tauto.
      + unfold gaps in Hp. apply in_map_iff in Hp.
        destruct Hp as [[c d] [<- Hcd]]. apply from_atomic_spec in Hx.
        rewrite below_invert, above_invert in Hx. right. right. eauto.
    - intros [H|[H|[c [d [Hcd Hx]]]]].
      + eexists. split; [left; reflexivity|].
        apply from_atomic_spec. rewrite below_invert. simpl. tauto.
      + eexists. split; [right; left; reflexivity|].
        apply from_atomic_spec. rewrite above_invert. simpl. tauto.
      + exists (from_atomic (Bound_invert (right c)) (upper c) (lower d)
                            (Bound_invert (left d))).
        split.
        * right. right. unfold gaps. apply in_map_iff. exists (c, d). auto.
        * apply from_atomic_spec. rewrite below_invert, above_invert. auto. }
  rewrite Hpieces. clear Hpieces gaps.
  destruct i as [|a l].
  - simpl. pose proof (In_interval_nil x). tauto.
  - change (Interval_left (a :: l)) with (left a).
    change (Interval_lower (a :: l)) with (lower a).
    destruct (above_dec (left a) (lower a) x) as [Ha|Ha].
    + pose proof (after_first x l a Hwf Ha). tauto.
    + destruct (before_first x l a Hwf Ha). tauto.
Qed.

(** ** Emptiness *)

Lemma proper_inhabited (a : Atomic) : proper a -> exists x, In_atomic x a.
Proof.
  destruct a as [l lo up r]. unfold proper, properb, In_atomic. simpl.
  intros Hp. destruct lo as [|t1|], up as [|t2|];
    try (exfalso; qorder; fail).
  - exists (inject_Z t2 - 1). simpl. destruct r; split; auto; lra.
  - exists 0. simpl. auto.
  - exists ((inject_Z t1 + inject_Z t2) * (1 # 2)).
    unfold xltb, xeqb in Hp. simpl in Hp.
    destruct (Z.compare_spec t1 t2) as [E|E|E]; simpl in Hp.
    + subst t2. destruct l, r; try discriminate. simpl. split; lra.
    + rewrite Zlt_Qlt in E. destruct l, r; simpl; split; lra.
    + destruct l, r; discriminate.
  - exists (inject_Z t1 + 1). simpl. destruct l; split; auto; lra.
Qed.

Lemma Interval_empty_spec (i : Interval) :
  Forall proper i ->
  (Interval_empty i = true <-> forall x, ~ In_interval x i).
Proof.
  intros Hp. destruct i as [|a i]; simpl.
  - split; auto. intros _ x. apply In_interval_nil.
  - split; [discriminate|]. intros H. inversion Hp; subst.
    destruct (proper_inhabited a) as [x Hx]; auto.
    exfalso. apply (H x). rewrite In_interval_cons. auto.
Qed.

(** ** What is cached and what is missing *)

Lemma wf_proper (i : Interval) : wf i -> Forall proper i.
Proof. intros [H _]. exact H. Qed.

Lemma Interval_or_spec (i j : Interval) :
  wf i -> wf j ->
  wf (Interval_or i j)
  /\ forall x, In_interval x (Interval_or i j)
               <-> In_interval x i \/ In_interval x j.
Proof.
  intros Hi Hj. unfold Interval_or.
  destruct (Interval_init_spec [i; j]) as [Hw Hin].
  - repeat constructor; apply wf_proper; assumption.
  - split; [exact Hw|]. intros x. rewrite Hin. simpl. split.
    + intros [k [[<-|[<-|[]]] Hx]]; auto.
    + intros [Hx|Hx]; eauto.
Qed.

Lemma fold_or_spec (ks : list Interval) :
  forall k, wf k -> Forall wf ks ->
    wf (fold_left Interval_or ks k)
    /\ forall x, In_interval x (fold_left Interval_or ks k)
                 <-> exists k', In k' (k :: ks) /\ In_interval x k'.
Proof.
  induction ks as [|k1 ks IH]; intros k Hk Hks; simpl.
  - split; [exact Hk|]. intros x. split; eauto.
    intros [k' [[<-|[]] Hx]]. exact Hx.
  - inversion Hks; subst.
    destruct (Interval_or_spec k k1) as [Hw Hin]; auto.
    destruct (IH (Interval_or k k1)) as [Hw' Hin']; auto.
    split; [exact Hw'|]. intros x. rewrite Hin'. simpl. split.
    + intros [k' [[<-|Hk'] Hx]]; [|eauto].
      apply Hin in Hx. destruct Hx; eauto.
    + intros [k' [[<-|[<-|Hk']] Hx]]; [| |eauto].
      * exists (Interval_or k k1). split; [auto|]. apply Hin. auto.
      * exists (Interval_or k k1). split; [auto|]. apply Hin. auto.
Qed.

Lemma available_spec (history : dict) :
  Forall wf (keys history) ->
  wf (_history_available_interval history)
  /\ forall x, In_interval x (_history_available_interval history)
               <-> cached history x.
Proof.
  intros Hk. unfold _history_available_interval, cached.
  destruct (keys history) as [|k ks].
  - split; [split; constructor|]. intros x. split.
    + intros H. destruct (In_interval_nil _ H).
    + intros [k [[] _]].
  - inversion Hk; subst. apply fold_or_spec; assumption.
Qed.

Lemma open_spec (lo up : xtime) (x : Q) :
  In_interval x (open lo up) <-> above OPEN lo x /\ below OPEN up x.
Proof. apply from_atomic_spec. Qed.

Lemma missing_spec (history : dict) (start end_ : xtime) :
  Forall wf (keys history) ->
  wf (_get_missing_intervals history start end_)
  /\ forall x, In_interval x (_get_missing_intervals history start end_)
               <-> In_interval x (open start end_) /\ ~ cached history x.
Proof.
  intros Hk. unfold _get_missing_intervals, _get_available_interval.
  destruct (available_spec history Hk) as [Hwa Hina].
  pose proof (from_atomic_wf OPEN start end_ OPEN) as Hwr.
  fold (open start end_) in Hwr.
  destruct (Interval_and_spec (_history_available_interval history)
                              (open start end_)) as [Hw1 Hin1];
    try (apply wf_proper; assumption).
  destruct (Interval_invert_spec _ Hw1) as [Hw2 Hin2].
  destruct (Interval_and_spec
              (Interval_invert
                 (Interval_and (_history_available_interval history)
                               (open start end_)))
              (open start end_)) as [Hw3 Hin3];
    try (apply wf_proper; assumption).
  split; [exact Hw3|]. intros x.
  rewrite Hin3, Hin2, Hin1, Hina. tauto.
Qed.

(** ** No fetch for a covered range *)

Section NoRedundantFetch.

Context {exn Node : Type}.
Variable read_raw_history : Node -> xtime -> xtime -> Node * page exn.

Lemma covered_missing_empty (history : dict) (start end_ : Z) :
  Forall wf (keys history) ->
  covered history start end_ ->
  _get_missing_intervals history (T start) (T end_) = [].
Proof.
  intros Hk Hc.
  destruct (missing_spec history (T start) (T end_) Hk) as [Hw Hin].
  assert (He : Interval_empty
                 (_get_missing_intervals history (T start) (T end_)) = true).
  { apply Interval_empty_spec; [apply wf_proper; exact Hw|].
    intros x Hx. apply Hin in Hx. destruct Hx as [Hx Hn]. apply Hn.
    apply Hc. apply open_spec in Hx. simpl in Hx. exact Hx. }
  destruct (_get_missing_intervals history (T start) (T end_));
    [reflexivity|discriminate].
Qed.

(** C6: when the open range from [start] to [end] already lies in the union
    of the keys of the cache, [get_history(start, end)] makes no page
    request; it ends normally and leaves the node and the dict as they
    were. *)
Theorem covered_no_fetch
    (fuel : nat) (node : Node) (history : dict) (start end_ : Z) :
  Forall wf (keys history) ->
  (start < end_)%Z ->
  covered history start end_ ->
  let r := get_history read_raw_history fuel node history start end_ in
  requests r = [] /\ status r = Finished
  /\ node_after r = node /\ value r = history.
Proof.
  intros Hk _ Hc r. subst r. unfold get_history.
  rewrite (covered_missing_empty history start end_ Hk Hc). simpl. auto.
Qed.

End NoRedundantFetch.

(** ** The keys of the cache stay disjoint *)

Lemma disjoint_sym (i j : Interval) : disjoint i j -> disjoint j i.
Proof. unfold disjoint. intros H x [H1 H2]. apply (H x). auto. Qed.

Lemma disjoint_subset (i i' j : Interval) :
  (forall x, In_interval x i' -> In_interval x i) ->
  disjoint i j -> disjoint i' j.
Proof. unfold disjoint. intros Hs H x [H1 H2]. apply (H x). auto. Qed.

Lemma ForallOrdPairs_app_inv {A : Type} (R : A -> A -> Prop)
    (l1 l2 : list A) :
  ForallOrdPairs R (l1 ++ l2) ->
  ForallOrdPairs R l1 /\ ForallOrdPairs R l2
  /\ forall a b, In a l1 -> In b l2 -> R a b.
Proof.
  induction l1 as [|a l1 IH]; simpl; intros H.
  - repeat split; [constructor|exact H|intros a b []].
  - inversion H as [|? ? Ha Hl]; subst.
    destruct (IH Hl) as [H1 [H2 H12]].
    rewrite Forall_app in Ha. destruct Ha as [Ha1 Ha2].
    repeat split; [constructor; assumption|assumption|].
    intros a' b [<-|Ha'] Hb; auto.
    rewrite Forall_forall in Ha2. auto.
Qed.

Lemma ForallOrdPairs_snoc {A : Type} (R : A -> A -> Prop)
    (l : list A) (b : A) :
  ForallOrdPairs R l -> Forall (fun a => R a b) l ->
  ForallOrdPairs R (l ++ [b]).
Proof.
  induction l as [|a l IH]; simpl; intros H Hb.
  - repeat constructor.
  - inversion H; subst. inversion Hb; subst.
    constructor; [|apply IH; assumption].
    apply Forall_app. split; [assumption|]. repeat constructor. assumption.
Qed.

Lemma keys_dict_set (d : dict) (k : Interval) (v : list DataValue) :
  keys (dict_set d k v) = keys d
  \/ (keys (dict_set d k v) = keys d ++ [k] ).
Proof.
  induction d as [|[k' v'] d IH]; simpl; auto.
  destruct (Interval_eqb k' k); simpl; auto.
  destruct IH as [-> | ->]; auto.
Qed.

(** The atomic intervals of a well-formed interval share no point. *)
Lemma wf_atoms_disjoint (l : list Atomic) :
  wf l ->
  ForallOrdPairs (fun a b => forall x, ~ (In_atomic x a /\ In_atomic x b)) l.
Proof.
  induction l as [|a l IH]; intros Hwf; [constructor|].
  assert (Hwf' : wf l).
  { destruct Hwf as [Hp Hs]. inversion Hp; subst. inversion Hs; subst.
    split; assumption. }
  constructor; [|apply IH; exact Hwf'].
  destruct l as [|b l]; [constructor|].
  destruct (wf_cons_inv _ _ _ Hwf) as [Hp [Hs _]].
  apply Forall_forall. intros c Hc x [[_ Hb] Hxc].
  pose proof (separated_before a b x Hs Hb) as Hab.
  destruct (before_first x l b Hwf' Hab) as [Hn _].
  apply Hn. exists c. auto.
Qed.

Lemma singletons_disjoint (l : list Atomic) :
  wf l -> ForallOrdPairs disjoint (map (fun a => [a]) l).
Proof.
  intros Hw. pose proof (wf_atoms_disjoint l Hw) as Hd. clear Hw.
  induction Hd as [|a l Ha Hl IH]; simpl; constructor; auto.
  rewrite Forall_map. eapply Forall_impl; [|exact Ha].
  intros b Hb x. rewrite !In_interval_singleton. apply Hb.
Qed.

Lemma open_inside (m : Interval) (x : Q) :
  (length m <= 1)%nat ->
  In_interval x (open (Interval_lower m) (Interval_upper m)) ->
  In_interval x m.
Proof.
  intros Hl Hx. apply open_spec in Hx. apply short_hull; [exact Hl|].
  destruct Hx as [H1 H2]. split.
  - destruct (Interval_lower m); simpl in *; auto.
    destruct (Interval_left m); auto. lra.
  - destruct (Interval_upper m); simpl in *; auto.
    destruct (Interval_right m); auto. lra.
Qed.

Section DisjointKeys.

Context {exn Node : Type}.
Variable read_raw_history : Node -> xtime -> xtime -> Node * page exn.

Lemma populate_keeps_disjoint (fuel : nat) (intervals : list Interval) :
  forall (node : Node) (history : dict),
    populate_inv history intervals ->
    let r := _populate_cache read_raw_history fuel node history intervals in
    Forall wf (keys (value r)) /\ pairwise_disjoint (keys (value r)).
Proof.
  induction intervals as [|m rest IH]; intros node history Hinv; cbv zeta.
  - destruct Hinv as [H1 [H2 _]]. simpl. auto.
  - destruct Hinv as [Hwf [Hpd [Hms Hmm]]].
    inversion Hms as [|? ? [Hlen Hmk] Hrest]; subst.
    inversion Hmm as [|? ? Hm_rest Hrr]; subst.
    simpl.
    set (dvs := node_read_full_history read_raw_history fuel node
                  (Interval_lower m) (Interval_upper m)).
    destruct (status dvs); simpl; auto.
    apply IH. clear IH.
    set (span := open (Interval_lower m) (Interval_upper m)).
    assert (Hsub : forall x, In_interval x span -> In_interval x m)
      by (intros x; apply open_inside; exact Hlen).
    assert (Hwf' : Forall wf (keys history ++ [span])).
    { apply Forall_app. split; [exact Hwf|].
      repeat constructor; apply from_atomic_wf. }
    assert (Hpd' : pairwise_disjoint (keys history ++ [span])).
    { apply ForallOrdPairs_snoc; [exact Hpd|].
      eapply Forall_impl; [|exact Hmk]. intros k Hk.
      apply disjoint_sym. apply (disjoint_subset m); auto.
      apply disjoint_sym. exact Hk. }
    assert (Hrest' :
      Forall (fun m' => (length m' <= 1)%nat
                        /\ Forall (fun k => disjoint k m')
                                  (keys history ++ [span])) rest).
    { rewrite Forall_forall in *. intros m' Hm'.
      destruct (Hrest m' Hm') as [Hl' Hk']. split; [exact Hl'|].
      apply Forall_app. split; [exact Hk'|].
      repeat constructor. apply (disjoint_subset m); auto. }
    unfold populate_inv.
    destruct (keys_dict_set history span (value dvs)) as [E|E]; rewrite E.
    + repeat split; auto.
    + repeat split; auto.
Qed.

Lemma populate_inv_prefix (history : dict) (l1 l2 : list Interval) :
  populate_inv history (l1 ++ l2) -> populate_inv history l1.
Proof.
  intros [H1 [H2 [H3 H4]]]. repeat split; auto.
  - rewrite Forall_app in H3. tauto.
  - apply ForallOrdPairs_app_inv in H4. tauto.
Qed.

Lemma missing_inv (history : dict) (start end_ : xtime) :
  Forall wf (keys history) -> pairwise_disjoint (keys history) ->
  populate_inv history
    (Interval_iter (_get_missing_intervals history start end_)).
Proof.
  intros Hwf Hpd.
  destruct (missing_spec history start end_ Hwf) as [Hw Hin].
  set (missing := _get_missing_intervals history start end_) in *.
  rewrite (Interval_iter_of_proper missing (wf_proper _ Hw)).
  repeat split; auto.
  - apply Forall_forall. intros m Hm. apply in_map_iff in Hm.
    destruct Hm as [a [<- Ha]]. split; [simpl; lia|].
    apply Forall_forall. intros k Hk x [Hxk Hxa].
    rewrite In_interval_singleton in Hxa.
    assert (Hx : In_interval x missing) by (exists a; auto).
    apply Hin in Hx. destruct Hx as [_ Hn]. apply Hn. exists k. auto.
  - apply singletons_disjoint. exact Hw.
Qed.

Lemma reachable_keys (history : dict) :
  reachable read_raw_history history ->
  Forall wf (keys history) /\ pairwise_disjoint (keys history).
Proof.
  intros Hr.
  induction Hr as [|fuel node h start end_ Hr [IH1 IH2]
                   |fuel node h start end_ n Hr [IH1 IH2]].
  - split; constructor.
  - unfold get_history.
    destruct (negb (Interval_empty _)); [|simpl; auto].
    apply populate_keeps_disjoint. apply missing_inv; assumption.
  - apply populate_keeps_disjoint.
    apply (populate_inv_prefix h _
             (skipn n (Interval_iter
                         (_get_missing_intervals h (T start) (T end_))))).
    rewrite firstn_skipn. apply missing_inv; assumption.
Qed.

(** C8: at every point of any sequence of [get_history] calls the keys of
    the history dict are pairwise disjoint; and the open interval that
    [_populate_cache] inserts for a missing interval shares no point with
    any key already in the dict. *)
Theorem keys_stay_disjoint (history : dict) :
  reachable read_raw_history history ->
  pairwise_disjoint (keys history)
  /\ forall (start end_ : Z) (atomic_int k : Interval),
      In atomic_int
         (Interval_iter (_get_missing_intervals history (T start) (T end_))) ->
      In k (keys history) ->
      disjoint k (open (Interval_lower atomic_int)
                       (Interval_upper atomic_int)).
Proof.
  intros Hr. destruct (reachable_keys history Hr) as [Hwf Hpd].
  split; [exact Hpd|]. intros start end_ m k Hm Hk.
  destruct (missing_inv history (T start) (T end_) Hwf Hpd)
    as [_ [_ [Hms _]]].
  rewrite Forall_forall in Hms. destruct (Hms m Hm) as [Hlen Hd].
  rewrite Forall_forall in Hd. specialize (Hd k Hk).
  apply disjoint_sym. apply (disjoint_subset m).
  - intros x. apply open_inside. exact Hlen.
  - apply disjoint_sym. exact Hd.
Qed.

End DisjointKeys.

(** ** What the read path yields *)

Lemma merged_bounds_within (lo hi : xtime) (a b : Atomic) :
  bounds_within lo hi a -> bounds_within lo hi b ->
  bounds_within lo hi (merged a b).
Proof.
  unfold bounds_within. rewrite merged_lower, merged_upper.
  intros [H1 H2] [H3 H4]. split.
  - destruct (xeqb (lower a) (lower b)); auto.
    unfold xmin. destruct (xltb (lower b) (lower a)); auto.
  - destruct (xeqb (upper a) (upper b)); auto.
    unfold xmax. destruct (xltb (upper a) (upper b)); auto.
Qed.

Lemma merge_from_bounds (lo hi : xtime) (rest : list Atomic) :
  forall current,
    bounds_within lo hi current -> Forall (bounds_within lo hi) rest ->
    Forall (bounds_within lo hi) (merge_from current rest).
Proof.
  induction rest as [|successor rest IH]; intros current Hc Hr; simpl.
  - constructor; [exact Hc|constructor].
  - inversion Hr; subst. destruct (mergeable current successor).
    + apply IH; auto. apply merged_bounds_within; assumption.
    + constructor; auto.
Qed.

Lemma Interval_init_bounds (lo hi : xtime) (intervals : list Interval) :
  Forall (Forall (bounds_within lo hi)) intervals ->
  Forall (bounds_within lo hi) (Interval_init intervals).
Proof.
  intros H. unfold Interval_init.
  set (l := flat_map _ intervals).
  assert (Hl : Forall (bounds_within lo hi) l).
  { apply Forall_forall. intros a Ha. apply gather_spec in Ha.
    destruct Ha as [i [Hi Ha]].
    rewrite Forall_forall in H. specialize (H i Hi).
    rewrite Forall_forall in H. auto. }
  assert (Hs : Forall (bounds_within lo hi) (sort_by_key l)).
  { eapply Permutation_Forall; [symmetry; apply sort_by_key_perm|exact Hl]. }
  destruct (sort_by_key l) as [|a rest]; simpl; [constructor|].
  inversion Hs; subst. apply merge_from_bounds; assumption.
Qed.

(** The bounds of an intersection of two atomic operands lie within the
    bounds of both. *)
Lemma and_atomic_bounds (i j : Interval) :
  Forall (fun a =>
            bounds_within (Interval_lower i) (Interval_upper i) a
            /\ bounds_within (Interval_lower j) (Interval_upper j) a)
         (and_atomic i j).
Proof.
  unfold and_atomic, bounds_within.
  generalize (Interval_lower i) (Interval_upper i) (Interval_left i)
             (Interval_right i) (Interval_lower j) (Interval_upper j)
             (Interval_left j) (Interval_right j).
  intros loi upi li ri loj upj lj rj.
  assert (Hlo : xleb loi (if xeqb loi loj then loi else xmax loi loj) = true
                /\ xleb loj (if xeqb loi loj then loi else xmax loi loj)
                   = true) by (clear; qorder).
  assert (Hup : xleb (if xeqb upi upj then upi else xmin upi upj) upi = true
                /\ xleb (if xeqb upi upj then upi else xmin upi upj) upj
                   = true) by (clear; qorder).
  destruct (xeqb loi loj) eqn:E1; destruct (xeqb upi upj) eqn:E2;
    unfold from_atomic;
    match goal with
    | |- Forall _ (if ?c then _ else _) => destruct c
    end; constructor; try constructor; simpl; tauto.
Qed.

Lemma open_nonempty (start end_ : Z) :
  (start < end_)%Z ->
  open (T start) (T end_) = [mkAtomic OPEN (T start) (T end_) OPEN].
Proof.
  intros H. unfold open, from_atomic, xltb. simpl.
  rewrite (proj2 (Z.compare_lt_iff _ _) H). reflexivity.
Qed.

Lemma Interval_and_request_bounds (k : Interval) (start end_ : Z) :
  (start < end_)%Z ->
  Forall (bounds_within (T start) (T end_))
         (Interval_and k (open (T start) (T end_))).
Proof.
  intros H. rewrite (open_nonempty _ _ H).
  set (q := mkAtomic OPEN (T start) (T end_) OPEN).
  assert (Hq : forall i, Forall (bounds_within (T start) (T end_))
                                (and_atomic i [q])).
  { intros i. eapply Forall_impl; [|apply (and_atomic_bounds i [q])].
    simpl. tauto. }
  unfold Interval_and. destruct (Interval_atomic k && Interval_atomic [q]).
  - apply Hq.
  - apply Interval_init_bounds. apply Forall_forall. intros p Hp.
    apply in_flat_map in Hp. destruct Hp as [i [_ Hp]].
    apply in_map_iff in Hp. destruct Hp as [j [<- Hj]].
    unfold Interval_iter in Hj. simpl in Hj.
    unfold from_atomic, xltb in Hj. simpl in Hj.
    rewrite (proj2 (Z.compare_lt_iff _ _) H) in Hj. simpl in Hj.
    destruct Hj as [<-|[]]. apply Hq.
Qed.

Lemma Interval_bounds (lo hi : xtime) (i : Interval) :
  Forall (bounds_within lo hi) i -> Interval_empty i = false ->
  xleb lo (Interval_lower i) = true /\ xleb (Interval_upper i) hi = true.
Proof.
  intros H He. rewrite Forall_forall in H. split.
  - destruct i as [|a i]; [discriminate|]. simpl. apply H. now left.
  - unfold Interval_upper. destruct (rev i) as [|a r] eqn:E.
    + apply (f_equal (@rev Atomic)) in E. rewrite rev_involutive in E.
      subst i. discriminate.
    + apply H. apply in_rev. rewrite E. now left.
Qed.

Lemma partial_within (lo hi : xtime) (dvs : list DataValue) :
  within lo hi (_get_partial_dvs lo hi dvs).
Proof.
  unfold within, _get_partial_dvs. apply Forall_forall. intros v Hv.
  apply filter_In in Hv. destruct Hv as [_ Hv].
  apply andb_true_iff in Hv. exact Hv.
Qed.

Lemma within_widen (lo lo' hi hi' : xtime) (dvs : list DataValue) :
  xleb lo lo' = true -> xleb hi' hi = true ->
  within lo' hi' dvs -> within lo hi dvs.
Proof.
  intros H1 H2 H. unfold within in *. eapply Forall_impl; [|exact H].
  simpl. intros v [H3 H4]. split; eapply xleb_trans; eauto.
Qed.

Lemma partial_ascending (lo hi : xtime) (dvs : list DataValue) :
  ascending dvs -> ascending (_get_partial_dvs lo hi dvs).
Proof.
  unfold ascending, timestamps, _get_partial_dvs. intros H.
  apply Sorted_StronglySorted in H; [|intros x y z; apply Z.le_trans].
  apply StronglySorted_Sorted.
  induction dvs as [|v dvs IH]; simpl; [constructor|].
  simpl in H. inversion H; subst.
  destruct (_ && _); simpl; auto.
  constructor; auto.
  rewrite Forall_map in *. rewrite Forall_forall in *.
  intros w Hw. apply filter_In in Hw. destruct Hw as [Hw _]. auto.
Qed.

Lemma ascending_app_cross (l1 l2 : list DataValue) :
  ascending l1 -> ascending l2 ->
  (forall v1 v2, In v1 l1 -> In v2 l2 ->
                 (SourceTimestamp v1 <= SourceTimestamp v2)%Z) ->
  ascending (l1 ++ l2).
Proof.
  unfold ascending, timestamps. intros H1 H2 Hc.
  apply Sorted_StronglySorted in H1; [|intros x y z; apply Z.le_trans].
  apply Sorted_StronglySorted in H2; [|intros x y z; apply Z.le_trans].
  apply StronglySorted_Sorted.
  induction l1 as [|a l1 IH]; simpl; [exact H2|].
  simpl in H1. inversion H1; subst.
  constructor; [apply IH; auto; intros; apply Hc; simpl; auto|].
  rewrite map_app. apply Forall_app. split; [assumption|].
  rewrite Forall_map. apply Forall_forall. intros v Hv. apply Hc; simpl; auto.
Qed.

Lemma dvs_from_cache_taken (history : dict) (start end_ : xtime) :
  _dvs_from_cache history start end_ = flat_map (taken start end_) history.
Proof. reflexivity. Qed.

Lemma taken_within_request (start end_ : Z)
    (entry : Interval * list DataValue) :
  (start < end_)%Z ->
  within (T start) (T end_) (taken (T start) (T end_) entry).
Proof.
  intros H. destruct entry as [k dvs]. simpl.
  destruct (Interval_empty _) eqn:E; [constructor|].
  destruct (Interval_bounds _ _ _ (Interval_and_request_bounds k _ _ H) E)
    as [H1 H2].
  eapply within_widen; [exact H1|exact H2|apply partial_within].
Qed.

Lemma taken_within_key (start end_ : xtime)
    (entry : Interval * list DataValue) :
  Interval_atomic (fst entry) = true ->
  within (Interval_lower (fst entry)) (Interval_upper (fst entry))
         (taken start end_ entry).
Proof.
  destruct entry as [k dvs]. simpl. intros Hk.
  destruct (Interval_empty _) eqn:E; [constructor|].
  assert (Ha : Interval_and k (open start end_)
               = and_atomic k (open start end_)).
  { unfold Interval_and. rewrite Hk. unfold Interval_atomic, open.
    rewrite (proj2 (Nat.leb_le _ _) (from_atomic_atomic _ _ _ _)).
    reflexivity. }
  rewrite Ha in *.
  assert (Hb : Forall (bounds_within (Interval_lower k) (Interval_upper k))
                      (and_atomic k (open start end_))).
  { eapply Forall_impl; [|apply and_atomic_bounds]. simpl. tauto. }
  destruct (Interval_bounds _ _ _ Hb E) as [H1 H2].
  eapply within_widen; [exact H1|exact H2|apply partial_within].
Qed.

Lemma taken_ascending (start end_ : xtime)
    (entry : Interval * list DataValue) :
  ascending (snd entry) -> ascending (taken start end_ entry).
Proof.
  destruct entry as [k dvs]. simpl. intros H.
  destruct (Interval_empty _); [constructor|].
  apply partial_ascending. exact H.
Qed.

Section ReadPath.

Context {exn Node : Type}.
Variable read_raw_history : Node -> xtime -> xtime -> Node * page exn.

Lemma dvs_from_cache_within (history : dict) (start end_ : Z) :
  (start < end_)%Z ->
  within (T start) (T end_) (_dvs_from_cache history (T start) (T end_)).
Proof.
  intros H. rewrite dvs_from_cache_taken. unfold within.
  induction history as [|entry h IH]; simpl; [constructor|].
  apply Forall_app. split; [|exact IH].
  apply taken_within_request. exact H.
Qed.

Lemma dvs_from_cache_ascending (history : dict) (start end_ : xtime) :
  keys_ascending history ->
  Forall (fun entry => ascending (snd entry)) history ->
  ascending (_dvs_from_cache history start end_).
Proof.
  rewrite dvs_from_cache_taken. unfold keys_ascending.
  induction history as [|entry h IH]; simpl; intros [Hat Hord] Hs.
  - constructor.
  - inversion Hat as [|? ? Hk Hat']; subst.
    inversion Hord as [|? ? Hord' Hle]; subst.
    inversion Hs as [|? ? Hs1 Hs']; subst.
    apply ascending_app_cross.
    + apply taken_ascending. exact Hs1.
    + apply IH; auto.
    + intros v1 v2 Hv1 Hv2.
      pose proof (taken_within_key start end_ entry Hk) as Hw1.
      unfold within in Hw1. rewrite Forall_forall in Hw1.
      destruct (Hw1 v1 Hv1) as [_ Hup].
      apply in_flat_map in Hv2. destruct Hv2 as [entry2 [He2 Hv2]].
      assert (Hk2 : Interval_atomic (fst entry2) = true).
      { rewrite Forall_forall in Hat'. apply Hat'.
        unfold keys. apply in_map. exact He2. }
      pose proof (taken_within_key start end_ entry2 Hk2) as Hw2.
      unfold within in Hw2. rewrite Forall_forall in Hw2.
      destruct (Hw2 v2 Hv2) as [Hlo _].
      assert (Hkk : xleb (Interval_upper (fst entry))
                         (Interval_lower (fst entry2)) = true).
      { rewrite Forall_forall in Hle. apply Hle.
        unfold keys. apply in_map. exact He2. }
      pose proof (xleb_trans _ _ _ Hup (xleb_trans _ _ _ Hkk Hlo)) as Hfin.
      unfold xleb in Hfin. simpl in Hfin.
      destruct (Z.compare_spec (SourceTimestamp v1) (SourceTimestamp v2));
        try lia; discriminate.
Qed.

(** C2, as the code has it: every point of the sequence that
    [get_history(start, end)] returns has its timestamp in the closed range
    from [start] to [end]; the read path visits the entries in the order in
    which the dict holds them, so the sequence is sorted ascending when the
    keys stand in the dict in ascending order and every entry is sorted. *)
Theorem get_history_output
    (fuel : nat) (node : Node) (history : dict) (start end_ : Z) :
  (start < end_)%Z ->
  let r := get_history read_raw_history fuel node history start end_ in
  let out := _dvs_from_cache (value r) (T start) (T end_) in
  within (T start) (T end_) out
  /\ out = flat_map (taken (T start) (T end_)) (value r)
  /\ (keys_ascending (value r) ->
      Forall (fun entry => ascending (snd entry)) (value r) ->
      ascending out).
Proof.
  intros H r out. split; [|split].
  - apply dvs_from_cache_within. exact H.
  - reflexivity.
  - apply dvs_from_cache_ascending.
Qed.

End ReadPath.

(** ** The example nodes keep the contract of the source *)

Lemma In_firstn {A : Type} (n : nat) (l : list A) (x : A) :
  In x (firstn n l) -> In x l.
Proof.
  revert n. induction l as [|a l IH]; intros [|n]; simpl; auto.
  - intros [].
  - intros [H|H]; eauto.
Qed.

Lemma firstn_ascending (n : nat) (dvs : list DataValue) :
  ascending dvs -> ascending (firstn n dvs).
Proof.
  unfold ascending, timestamps. intros H.
  apply Sorted_StronglySorted in H; [|intros x y z; apply Z.le_trans].
  apply StronglySorted_Sorted. revert n.
  induction dvs as [|v dvs IH]; intros [|n]; simpl; try constructor.
  - simpl in H. inversion H; subst. apply IH; assumption.
  - simpl in H. inversion H; subst.
    rewrite Forall_map in *. rewrite Forall_forall in *.
    intros w Hw. apply H3. eapply In_firstn; eauto.
Qed.

Lemma paged_node_contract (page_size : nat) (data : list DataValue) :
  ascending data -> pages_sorted_in_range (paged_node page_size data).
Proof.
  intros Hd node start end_ node' vals E. unfold paged_node in E.
  inversion E; subst. split.
  - apply firstn_ascending. apply partial_ascending. exact Hd.
  - unfold within. apply Forall_forall. intros v Hv.
    apply In_firstn in Hv.
    pose proof (partial_within start end_ data) as Hw.
    unfold within in Hw. rewrite Forall_forall in Hw. auto.
Qed.

Lemma node_a_contract : pages_sorted_in_range node_a.
Proof.
  apply paged_node_contract. unfold ascending. simpl.
  repeat constructor; simpl; lia.
Qed.

Lemma reachable_after_0_10 : reachable node_a (value after_0_10).
Proof. apply (reach_call node_a 9 tt [] 0 10). apply reach_init. Qed.

Lemma reachable_after_5_15 : reachable node_a (value after_5_15).
Proof.
  apply (reach_call node_a 9 tt (value after_0_10) 5 15).
  apply reachable_after_0_10.
Qed.

Lemma filter_ascending (f : DataValue -> bool) (dvs : list DataValue) :
  ascending dvs -> ascending (filter f dvs).
Proof.
  unfold ascending, timestamps. intros H.
  apply Sorted_StronglySorted in H; [|intros x y z; apply Z.le_trans].
  apply StronglySorted_Sorted.
  induction dvs as [|v dvs IH]; simpl; [constructor|].
  simpl in H. inversion H; subst.
  destruct (f v); simpl; auto.
  constructor; auto.
  rewrite Forall_map in *. rewrite Forall_forall in *.
  intros w Hw. apply filter_In in Hw. destruct Hw as [Hw _]. auto.
Qed.

Lemma sorted_in_range_parts {exn Node : Type}
    (read_raw_history : Node -> xtime -> xtime -> Node * page exn) :
  pages_sorted_in_range read_raw_history ->
  pages_ascending read_raw_history /\ pages_in_range read_raw_history.
Proof.
  intros H. split; intros node start end_ node' vals E;
    destruct (H _ _ _ _ _ E); assumption.
Qed.

Lemma overshooting_node_contract (page_size : nat) (data : list DataValue) :
  ascending data ->
  pages_ascending (overshooting_node page_size data)
  /\ pages_from_start (overshooting_node page_size data).
Proof.
  intros Hd. split; intros node start end_ node' vals E;
    unfold overshooting_node in E; inversion E; subst.
  - apply firstn_ascending. apply filter_ascending. exact Hd.
  - apply Forall_forall. intros v Hv. apply In_firstn in Hv.
    apply filter_In in Hv. tauto.
Qed.

Lemma rewinding_node_contract (page_size : nat) (data : list DataValue) :
  ascending data ->
  pages_ascending (rewinding_node page_size data)
  /\ pages_to_end (rewinding_node page_size data).
Proof.
  intros Hd. split; intros node start end_ node' vals E;
    unfold rewinding_node in E; inversion E; subst.
  - apply firstn_ascending. apply filter_ascending. exact Hd.
  - apply Forall_forall. intros v Hv. apply In_firstn in Hv.
    apply filter_In in Hv. tauto.
Qed.

Lemma node_e_contract : pages_ascending node_e /\ pages_from_start node_e.
Proof.
  apply overshooting_node_contract. unfold ascending. simpl.
  repeat constructor; simpl; lia.
Qed.

Lemma node_f_contract : pages_ascending node_f /\ pages_to_end node_f.
Proof.
  apply rewinding_node_contract. unfold ascending. simpl.
  repeat constructor; simpl; lia.
Qed.

Lemma reachable_e_after_0_10 : reachable node_e (value e_after_0_10).
Proof. apply (reach_call node_e 9 tt [] 0 10). apply reach_init. Qed.

Lemma reachable_f_after_0_10 : reachable node_f (value f_after_0_10).
Proof. apply (reach_call node_f 9 tt [] 0 10). apply reach_init. Qed.

(** ** The claims at concrete inputs *)

Open Scope Z_scope.

(** C1 at a failing input: a cache that holds 0..10 is asked for 5..15; the
    call ends normally with the keys (0, 10) and (10, 15); the timestamp 10
    lies in the requested open range and in neither key, so the union of the
    keys is not a superset of the requested range. *)
Theorem boundary_point_left_uncovered :
  status after_5_15 = Finished
  /\ keys (value after_5_15) = [open (T 0) (T 10); open (T 10) (T 15)]
  /\ contains (open (T 5) (T 15)) 10 = true
  /\ contains (_history_available_interval (value after_5_15)) 10 = false
  /\ ~ covered (value after_5_15) 5 15.
Proof.
  assert (E : keys (value after_5_15)
              = [open (T 0) (T 10); open (T 10) (T 15)])
    by (vm_compute; reflexivity).
  split; [vm_compute; reflexivity|].
  split; [exact E|].
  split; [vm_compute; reflexivity|].
  split; [vm_compute; reflexivity|].
  intros H. destruct (H (inject_Z 10)) as [k [Hk Hx]]; clear H.
  - split; unfold Qlt; simpl; lia.
  - rewrite E in Hk. clear E.
    destruct Hk as [<-|[<-|[]]]; apply open_spec in Hx;
      destruct Hx as [H1 H2]; unfold above, below, Qlt in H1, H2;
      simpl in H1, H2; lia.
Qed.

(** C3 at a failing input: the same request 5..15 is made a second time;
    both calls end normally and yield the same points, but the second call
    makes a page request, for the range from 10 to 10. *)
Theorem repeated_call_fetches_again :
  status after_5_15 = Finished
  /\ status after_5_15_again = Finished
  /\ _dvs_from_cache (value after_5_15_again) (T 5) (T 15)
     = _dvs_from_cache (value after_5_15) (T 5) (T 15)
  /\ requests after_5_15_again = [(T 10, T 10)].
Proof. repeat split; vm_compute; reflexivity. Qed.

(** C9 at a failing input: the cache already holds an entry under the empty
    interval, with the point at 20; the call for 0..30 fills the gap at 10,
    which overwrites that entry, and then the fetch for the gap at 20
    raises.  The error reaches the caller, and an entry that existed before
    the call has changed. *)
Theorem failed_call_changes_old_entry :
  status c_after_10_30 = Finished
  /\ dict_get (value c_after_10_30) empty = Some [dv 20]
  /\ status c_after_0_30 = Raised tt
  /\ requests c_after_0_30 = [(T 10, T 10); (T 20, T 20)]
  /\ dict_get (value c_after_0_30) empty = Some [dv 10].
Proof. repeat split; vm_compute; reflexivity. Qed.

(** C2 fails as stated: a cache that holds 0..10 is asked for -5..20; the
    entries are read in the order (0, 10), (-5, 0), (10, 20), and the
    sequence that comes back starts 3, 3, -3. *)
Lemma get_history_output_not_sorted :
  (-5 < 20)
  /\ status b_after_m5_20 = Finished
  /\ timestamps (_dvs_from_cache (value b_after_m5_20) (T (-5)) (T 20))
     = [3; 3; -3; -3; 12; 12]
  /\ ~ ascending (_dvs_from_cache (value b_after_m5_20) (T (-5)) (T 20)).
Proof.
  assert (E : timestamps
                (_dvs_from_cache (value b_after_m5_20) (T (-5)) (T 20))
              = [3; 3; -3; -3; 12; 12]) by (vm_compute; reflexivity).
  split; [lia|]. split; [vm_compute; reflexivity|]. split; [exact E|].
  unfold ascending. rewrite E. clear E.
  intros H. inversion H as [|? ? H1 _]; subst.
  inversion H1 as [|? ? _ H2]; subst.
  inversion H2; subst. lia.
Qed.

(** C5 fails as stated: [get_history(10, 10)] ends normally; no error is
    raised. *)
Lemma degenerate_range_not_rejected :
  (10 >= 10)
  /\ status (get_history node_a 9 tt [] 10 10) = Finished
  /\ ~ exists e, status (get_history node_a 9 tt [] 10 10) = Raised e.
Proof.
  assert (E : status (get_history node_a 9 tt [] 10 10) = Finished)
    by (vm_compute; reflexivity).
  split; [lia|]. split; [exact E|]. intros [e He].
  rewrite E in He. discriminate.
Qed.

(** C7 fails as stated, in three ways.  A node whose pages are sorted and
    within the requested range stores 3, 6, 6, 10, 10 under the key (0, 10):
    two timestamps are there twice, and 10 is not a point of the key.  A node
    whose pages are sorted and go beyond [endtime] stores 3, 6, 6, 12, 12
    under (0, 10): 12 is beyond the upper bound.  A node whose pages are
    sorted and start before [starttime] stores -2, 3, -2, 3 under (0, 10):
    the sequence is not sorted, and -2 is before the lower bound. *)
Lemma stored_entries_not_as_claimed :
  (pages_ascending node_a /\ pages_in_range node_a
   /\ reachable node_a (value after_0_10)
   /\ value after_0_10
      = [(open (T 0) (T 10), [dv 3; dv 6; dv 6; dv 10; dv 10])]
   /\ ~ strictly_ascending [dv 3; dv 6; dv 6; dv 10; dv 10]
   /\ contains (open (T 0) (T 10)) 10 = false
   /\ ~ Forall entry_strict (value after_0_10))
  /\ (pages_ascending node_e /\ pages_from_start node_e
      /\ reachable node_e (value e_after_0_10)
      /\ value e_after_0_10
         = [(open (T 0) (T 10), [dv 3; dv 6; dv 6; dv 12; dv 12])]
      /\ xleb (T (SourceTimestamp (dv 12))) (T 10) = false
      /\ ~ Forall entry_strict (value e_after_0_10))
  /\ (pages_ascending node_f /\ pages_to_end node_f
      /\ reachable node_f (value f_after_0_10)
      /\ value f_after_0_10
         = [(open (T 0) (T 10), [dv (-2); dv 3; dv (-2); dv 3])]
      /\ ~ ascending [dv (-2); dv 3; dv (-2); dv 3]
      /\ xleb (T 0) (T (SourceTimestamp (dv (-2)))) = false
      /\ ~ Forall entry_strict (value f_after_0_10)).
Proof.
  assert (Ea : value after_0_10
               = [(open (T 0) (T 10), [dv 3; dv 6; dv 6; dv 10; dv 10])])
    by (vm_compute; reflexivity).
  assert (Ee : value e_after_0_10
               = [(open (T 0) (T 10), [dv 3; dv 6; dv 6; dv 12; dv 12])])
    by (vm_compute; reflexivity).
  assert (Ef : value f_after_0_10
               = [(open (T 0) (T 10), [dv (-2); dv 3; dv (-2); dv 3])])
    by (vm_compute; reflexivity).
  assert (Hdup : forall tail,
             ~ strictly_ascending (dv 3 :: dv 6 :: dv 6 :: tail)).
  { intros tail. unfold strictly_ascending. simpl. intros H.
    inversion H as [|? ? H1 _]; subst.
    inversion H1 as [|? ? _ H2]; subst.
    inversion H2 as [|? ? H3]; subst. lia. }
  assert (Hback : ~ ascending [dv (-2); dv 3; dv (-2); dv 3]).
  { unfold ascending. simpl. intros H.
    inversion H as [|? ? H1 _]; subst.
    inversion H1 as [|? ? _ H2]; subst.
    inversion H2 as [|? ? H3]; subst. lia. }
  split; [|split].
  - destruct (sorted_in_range_parts node_a node_a_contract) as [H1 H2].
    split; [exact H1|]. split; [exact H2|].
    split; [exact reachable_after_0_10|]. split; [exact Ea|].
    split; [apply Hdup|]. split; [vm_compute; reflexivity|].
    rewrite Ea. intros H. inversion H as [|? ? [Hs _] _]; subst.
    exact (Hdup _ Hs).
  - destruct node_e_contract as [H1 H2].
    split; [exact H1|]. split; [exact H2|].
    split; [exact reachable_e_after_0_10|]. split; [exact Ee|].
    split; [vm_compute; reflexivity|].
    rewrite Ee. intros H. inversion H as [|? ? [Hs _] _]; subst.
    exact (Hdup _ Hs).
  - destruct node_f_contract as [H1 H2].
    split; [exact H1|]. split; [exact H2|].
    split; [exact reachable_f_after_0_10|]. split; [exact Ef|].
    split; [exact Hback|]. split; [vm_compute; reflexivity|].
    rewrite Ef. intros H. inversion H as [|? ? [Hs _] _]; subst.
    apply Hback. unfold strictly_ascending in Hs. unfold ascending.
    simpl in *. clear - Hs.
    induction Hs as [|a l Hl IH Hd]; constructor; auto.
    destruct Hd; constructor. lia.
Qed.

(** ** The theorems at concrete inputs *)

Lemma get_history_output_witness :
  (0 < 10)
  /\ within (T 0) (T 10) (_dvs_from_cache (value after_0_10) (T 0) (T 10))
  /\ ascending (_dvs_from_cache (value after_0_10) (T 0) (T 10)).
Proof.
  assert (H : 0 < 10) by lia.
  destruct (get_history_output node_a 9%nat tt [] 0 10 H) as [Hw [_ Ha]].
  assert (E : value (get_history node_a 9 tt [] 0 10)
              = [(open (T 0) (T 10), [dv 3; dv 6; dv 6; dv 10; dv 10])])
    by (vm_compute; reflexivity).
  split; [exact H|]. split; [exact Hw|]. apply Ha; rewrite E.
  - split; repeat constructor.
  - repeat constructor; simpl; lia.
Defined.

Lemma node_read_full_history_halts_witness :
  cursor_at node_a 2 tt (T 0) (T 10) = Some (tt, T 10)
  /\ node_a tt (T 10) (T 10) = (tt, Vals [dv 10])
  /\ halts node_a tt (T 0) (T 10)
  /\ forall fuel, (2 < fuel)%nat ->
       status (node_read_full_history node_a fuel tt (T 0) (T 10)) = Finished
       /\ length (requests (node_read_full_history node_a fuel tt
                              (T 0) (T 10))) = 3%nat.
Proof.
  assert (H1 : cursor_at node_a 2 tt (T 0) (T 10) = Some (tt, T 10))
    by (vm_compute; reflexivity).
  assert (H2 : node_a tt (T 10) (T 10) = (tt, Vals [dv 10]))
    by (vm_compute; reflexivity).
  assert (H3 : exists last, last_value [dv 10] = Some last
                            /\ T (SourceTimestamp last) = T 10)
    by (exists (dv 10); split; reflexivity).
  destruct (node_read_full_history_halts node_a 2 tt (T 0) (T 10) tt (T 10)
              tt [dv 10] H1 H2 (or_intror (or_introl H3))) as [Hh Hf].
  split; [exact H1|]. split; [exact H2|]. split; [exact Hh|].
  apply Hf. right. exact H3.
Defined.

Lemma get_history_degenerate_no_error_witness :
  (10 >= 10)
  /\ status (get_history node_a 9 tt (value after_0_10) 10 10) = Finished.
Proof.
  assert (H : 10 >= 10) by lia.
  split; [exact H|].
  exact (get_history_degenerate_no_error node_a 9%nat tt (value after_0_10)
           10 10 H).
Defined.

Lemma get_history_degenerate_noop_witness :
  (7 >= 3)
  /\ status (get_history node_a 9 tt (value after_0_10) 7 3) = Finished
  /\ requests (get_history node_a 9 tt (value after_0_10) 7 3) = []
  /\ node_after (get_history node_a 9 tt (value after_0_10) 7 3) = tt
  /\ value (get_history node_a 9 tt (value after_0_10) 7 3)
     = value after_0_10
  /\ _dvs_from_cache (value (get_history node_a 9 tt (value after_0_10) 7 3))
                     (T 7) (T 3) = [].
Proof.
  assert (H : 7 >= 3) by lia.
  split; [exact H|].
  exact (get_history_degenerate_noop node_a 9%nat tt (value after_0_10)
           7 3 H).
Defined.

Lemma covered_no_fetch_witness :
  Forall wf (keys (value after_0_10))
  /\ (2 < 8)
  /\ covered (value after_0_10) 2 8
  /\ requests (get_history node_a 9 tt (value after_0_10) 2 8) = []
  /\ status (get_history node_a 9 tt (value after_0_10) 2 8) = Finished
  /\ node_after (get_history node_a 9 tt (value after_0_10) 2 8) = tt
  /\ value (get_history node_a 9 tt (value after_0_10) 2 8)
     = value after_0_10.
Proof.
  assert (E : keys (value after_0_10) = [open (T 0) (T 10)])
    by (vm_compute; reflexivity).
  assert (H1 : Forall wf (keys (value after_0_10))).
  { rewrite E. repeat constructor; apply from_atomic_wf. }
  assert (H2 : 2 < 8) by lia.
  assert (H3 : covered (value after_0_10) 2 8).
  { intros x [Hx1 Hx2]. exists (open (T 0) (T 10)).
    split; [rewrite E; now left|].
    apply open_spec. simpl.
    assert (inject_Z 0 < inject_Z 2)%Q by (unfold Qlt; simpl; lia).
    assert (inject_Z 8 < inject_Z 10)%Q by (unfold Qlt; simpl; lia).
    split; lra. }
  split; [exact H1|]. split; [exact H2|]. split; [exact H3|].
  exact (covered_no_fetch node_a 9%nat tt (value after_0_10) 2 8 H1 H2 H3).
Defined.

Lemma cache_entries_from_sorted_pages_witness :
  pages_ascending node_e
  /\ reachable node_e (value e_after_0_10)
  /\ Forall (entry_as_stored node_e) (value e_after_0_10).
Proof.
  split; [exact (proj1 node_e_contract)|].
  split; [exact reachable_e_after_0_10|].
  exact (cache_entries_from_sorted_pages node_e (proj1 node_e_contract)
           (value e_after_0_10) reachable_e_after_0_10).
Defined.

Lemma keys_stay_disjoint_witness :
  reachable node_a (value after_5_15)
  /\ pairwise_disjoint (keys (value after_5_15))
  /\ forall (start end_ : Z) (atomic_int k : Interval),
      In atomic_int
         (Interval_iter
            (_get_missing_intervals (value after_5_15) (T start) (T end_))) ->
      In k (keys (value after_5_15)) ->
      disjoint k (open (Interval_lower atomic_int)
                       (Interval_upper atomic_int)).
Proof.
  split; [exact reachable_after_5_15|].
  exact (keys_stay_disjoint node_a (value after_5_15) reachable_after_5_15).
Defined.

(** ** What a call of [get_history] keeps and what it adds *)

Lemma dict_get_set_other (d : dict) (k q : Interval) (v : list DataValue) :
  q <> k -> dict_get (dict_set d k v) q = dict_get d q.
Proof.
  intros Hq. induction d as [|[k' v'] d IH]; simpl.
  - destruct (Interval_eqb k q) eqn:E; [|reflexivity].
    apply Interval_eqb_eq in E. congruence.
  - destruct (Interval_eqb k' k) eqn:E1; simpl.
    + apply Interval_eqb_eq in E1. subst k'.
      destruct (Interval_eqb k q) eqn:E2; [|reflexivity].
      apply Interval_eqb_eq in E2. congruence.
    + destruct (Interval_eqb k' q); [reflexivity|exact IH].
Qed.

Lemma dict_get_key (d : dict) (q : Interval) (v : list DataValue) :
  dict_get d q = Some v -> In q (keys d).
Proof.
  induction d as [|[k' v'] d IH]; simpl; [discriminate|].
  destruct (Interval_eqb k' q) eqn:E; auto.
  apply Interval_eqb_eq in E. auto.
Qed.

Lemma keys_dict_set_incl (d : dict) (k q : Interval) (v : list DataValue) :
  In q (keys d) -> In q (keys (dict_set d k v)).
Proof.
  intros H. destruct (keys_dict_set d k v) as [-> | ->]; auto.
  apply in_or_app. auto.
Qed.

Lemma keys_dict_set_new (d : dict) (k : Interval) (v : list DataValue) :
  In k (keys (dict_set d k v)).
Proof.
  induction d as [|[k' v'] d IH]; simpl; auto.
  destruct (Interval_eqb k' k) eqn:E; simpl; auto.
  apply Interval_eqb_eq in E. auto.
Qed.

(** The open interval stored for a gap is not a non-empty key that is
    already there. *)
Lemma span_not_old_key (m q : Interval) :
  (length m <= 1)%nat -> disjoint q m -> q <> [] ->
  q <> open (Interval_lower m) (Interval_upper m).
Proof.
  intros Hl Hd Hq E.
  pose proof (from_atomic_proper OPEN (Interval_lower m) (Interval_upper m)
                                 OPEN) as Hp.
  fold (open (Interval_lower m) (Interval_upper m)) in Hp.
  rewrite <- E in Hp. destruct q as [|a q]; [congruence|].
  inversion Hp; subst.
  destruct (proper_inhabited a) as [x Hx]; auto.
  assert (Hxq : In_interval x (a :: q)) by (exists a; simpl; auto).
  apply (Hd x). split; [exact Hxq|].
  apply open_inside; [exact Hl|]. rewrite <- E. exact Hxq.
Qed.

Section Keeps.

Context {exn Node : Type}.
Variable read_raw_history : Node -> xtime -> xtime -> Node * page exn.

Local Abbreviation populate := (_populate_cache read_raw_history).

Lemma populate_inv_step (history : dict) (m : Interval)
    (rest : list Interval) (v : list DataValue) :
  populate_inv history (m :: rest) ->
  populate_inv (dict_set history
                  (open (Interval_lower m) (Interval_upper m)) v) rest.
Proof.
  intros [Hwf [Hpd [Hms Hmm]]].
  inversion Hms as [|? ? [Hlen Hmk] Hrest]; subst.
  inversion Hmm as [|? ? Hm_rest Hrr]; subst.
  set (span := open (Interval_lower m) (Interval_upper m)).
  assert (Hsub : forall x, In_interval x span -> In_interval x m)
    by (intros x; apply open_inside; exact Hlen).
  assert (Hwf' : Forall wf (keys history ++ [span])).
  { apply Forall_app. split; [exact Hwf|].
    repeat constructor; apply from_atomic_wf. }
  assert (Hpd' : pairwise_disjoint (keys history ++ [span])).
  { apply ForallOrdPairs_snoc; [exact Hpd|].
    eapply Forall_impl; [|exact Hmk]. intros k Hk.
    apply disjoint_sym. apply (disjoint_subset m); auto.
    apply disjoint_sym. exact Hk. }
  assert (Hrest' :
    Forall (fun m' => (length m' <= 1)%nat
                      /\ Forall (fun k => disjoint k m')
                                (keys history ++ [span])) rest).
  { rewrite Forall_forall in *. intros m' Hm'.
    destruct (Hrest m' Hm') as [Hl' Hk']. split; [exact Hl'|].
    apply Forall_app. split; [exact Hk'|].
    repeat constructor. apply (disjoint_subset m); auto. }
  unfold populate_inv.
  destruct (keys_dict_set history span v) as [E|E]; rewrite E;
    repeat split; auto.
Qed.

(** Keys are never removed. *)
Lemma populate_keys_grow (fuel : nat) (intervals : list Interval) :
  forall (node : Node) (history : dict) (q : Interval),
    In q (keys history) ->
    In q (keys (value (populate fuel node history intervals))).
Proof.
  induction intervals as [|m rest IH]; intros node history q Hq; simpl.
  - exact Hq.
  - destruct (status (node_read_full_history read_raw_history fuel node
                        (Interval_lower m) (Interval_upper m)));
      simpl; auto.
    apply IH. apply keys_dict_set_incl. exact Hq.
Qed.

(** The entry under a non-empty key is never changed. *)
Lemma populate_keeps_entries (fuel : nat) (intervals : list Interval) :
  forall (node : Node) (history : dict),
    populate_inv history intervals ->
    forall q v, q <> [] -> dict_get history q = Some v ->
                dict_get (value (populate fuel node history intervals)) q
                = Some v.
Proof.
  induction intervals as [|m rest IH]; intros node history Hinv q v Hq Hg.
  - exact Hg.
  - simpl.
    set (dvs := node_read_full_history read_raw_history fuel node
                  (Interval_lower m) (Interval_upper m)).
    destruct (status dvs); simpl; auto.
    apply IH; [apply populate_inv_step; exact Hinv|exact Hq|].
    rewrite dict_get_set_other; [exact Hg|].
    destruct Hinv as [_ [_ [Hms _]]].
    inversion Hms as [|? ? [Hlen Hmk] _]; subst.
    apply span_not_old_key; auto.
    rewrite Forall_forall in Hmk. apply Hmk.
    eapply dict_get_key; eauto.
Qed.

(** When [_populate_cache] ends with an error, the dict is the one left by
    the gaps before the failing one, and the fetch for the failing gap is
    what raised. *)
Lemma populate_stops_at_failure (fuel : nat) (intervals : list Interval) :
  forall (node : Node) (history : dict) (e : exn),
    status (populate fuel node history intervals) = Raised e ->
    exists pre m post,
      intervals = pre ++ m :: post
      /\ status (populate fuel node history pre) = Finished
      /\ value (populate fuel node history intervals)
         = value (populate fuel node history pre)
      /\ status (node_read_full_history read_raw_history fuel
                   (node_after (populate fuel node history pre))
                   (Interval_lower m) (Interval_upper m)) = Raised e.
Proof.
  induction intervals as [|m rest IH]; intros node history e; simpl.
  - discriminate.
  - set (dvs := node_read_full_history read_raw_history fuel node
                  (Interval_lower m) (Interval_upper m)).
    destruct (status dvs) eqn:Es; simpl.
    + intros H. destruct (IH _ _ _ H) as [pre [m' [post [E [H1 [H2 H3]]]]]].
      exists (m :: pre), m', post. subst rest. simpl. fold dvs.
      rewrite Es. simpl. auto.
    + intros H. inversion H; subst. exists [], m, rest. simpl.
      fold dvs. auto.
    + discriminate.
Qed.

(** When [_populate_cache] ends normally, the open interval of every gap is
    a key. *)
Lemma populate_finished_keys (fuel : nat) (intervals : list Interval) :
  forall (node : Node) (history : dict),
    status (populate fuel node history intervals) = Finished ->
    forall m, In m intervals ->
              In (open (Interval_lower m) (Interval_upper m))
                 (keys (value (populate fuel node history intervals))).
Proof.
  induction intervals as [|m rest IH]; intros node history Hs m' Hm'.
  - destruct Hm'.
  - simpl in *.
    set (dvs := node_read_full_history read_raw_history fuel node
                  (Interval_lower m) (Interval_upper m)) in *.
    destruct (status dvs) eqn:Es; simpl in *; try discriminate.
    destruct Hm' as [<-|Hm']; [|apply IH; assumption].
    apply populate_keys_grow. apply keys_dict_set_new.
Qed.


Lemma get_history_populate (fuel : nat) (node : Node) (history : dict)
    (start end_ : Z) :
  get_history read_raw_history fuel node history start end_
  = populate fuel node history
      (Interval_iter (_get_missing_intervals history (T start) (T end_))).
Proof.
  unfold get_history.
  destruct (_get_missing_intervals history (T start) (T end_)); reflexivity.
Qed.

(** What holds of C9 on every reachable cache: a call of [get_history],
    however it ends, removes no key and leaves the entry under every
    non-empty key as it was; when it ends with an error, the dict is the one
    left by the gaps filled before the failing one, so nothing is stored for
    the failing gap. *)
Lemma get_history_keeps
    (fuel : nat) (node : Node) (history : dict) (start end_ : Z) :
  reachable read_raw_history history ->
  let r := get_history read_raw_history fuel node history start end_ in
  let gaps :=
    Interval_iter (_get_missing_intervals history (T start) (T end_)) in
  (forall q, In q (keys history) -> In q (keys (value r)))
  /\ (forall q v, q <> [] -> dict_get history q = Some v ->
                  dict_get (value r) q = Some v)
  /\ (forall e, status r = Raised e ->
       exists pre m post,
         gaps = pre ++ m :: post
         /\ status (populate fuel node history pre) = Finished
         /\ value r = value (populate fuel node history pre)
         /\ status (node_read_full_history read_raw_history fuel
                      (node_after (populate fuel node history pre))
                      (Interval_lower m) (Interval_upper m)) = Raised e).
Proof.
  intros Hr r gaps. subst r gaps. rewrite get_history_populate.
  destruct (reachable_keys read_raw_history history Hr) as [Hwf Hpd].
  pose proof (missing_inv history (T start) (T end_) Hwf Hpd) as Hinv.
  split; [|split].
  - intros q. apply populate_keys_grow.
  - apply populate_keeps_entries. exact Hinv.
  - intros e. apply populate_stops_at_failure.
Qed.

End Keeps.

Lemma In_interval_dec (i : Interval) (x : Q) :
  In_interval x i \/ ~ In_interval x i.
Proof.
  induction i as [|a i IH].
  - right. apply In_interval_nil.
  - rewrite In_interval_cons. unfold In_atomic.
    destruct (above_dec (left a) (lower a) x);
      destruct (below_dec (right a) (upper a) x); tauto.
Qed.

(** A point of an atomic interval is a point of the open interval between
    its bounds, or it is one of the bounds. *)
Lemma In_atomic_open_or_bound (a : Atomic) (x : Q) :
  In_atomic x a ->
  In_interval x (open (lower a) (upper a))
  \/ exists t, (x == inject_Z t)%Q /\ (lower a = T t \/ upper a = T t).
Proof.
  intros [Ha Hb]. rewrite open_spec.
  destruct (above_dec OPEN (lower a) x) as [Ha'|Ha'];
    destruct (below_dec OPEN (upper a) x) as [Hb'|Hb']; auto; right.
  - destruct (upper a) as [|t|]; simpl in *; try tauto.
    exists t. split; auto. destruct (right a); lra.
  - destruct (lower a) as [|t|]; simpl in *; try tauto.
    exists t. split; auto. destruct (left a); lra.
  - destruct (lower a) as [|t|]; simpl in *; try tauto.
    exists t. split; auto. destruct (left a); lra.
Qed.

Section Coverage.

Context {exn Node : Type}.
Variable read_raw_history : Node -> xtime -> xtime -> Node * page exn.

(** What holds of C1 on every reachable cache: after a call of
    [get_history(start, end)] that ended normally, a point of the open range
    from [start] to [end] is in a key, or it is the lower or the upper bound
    of one of the gaps that the call filled. *)
Lemma coverage_up_to_bounds
    (fuel : nat) (node : Node) (history : dict) (start end_ : Z) :
  reachable read_raw_history history ->
  let r := get_history read_raw_history fuel node history start end_ in
  let gaps :=
    Interval_iter (_get_missing_intervals history (T start) (T end_)) in
  status r = Finished ->
  forall x : Q,
    (inject_Z start < x < inject_Z end_)%Q ->
    cached (value r) x
    \/ exists m t, In m gaps /\ (x == inject_Z t)%Q
                   /\ (Interval_lower m = T t \/ Interval_upper m = T t).
Proof.
  intros Hr r gaps Hs x Hx. subst r gaps.
  rewrite get_history_populate in *.
  destruct (reachable_keys read_raw_history history Hr) as [Hwf Hpd].
  destruct (missing_spec history (T start) (T end_) Hwf) as [Hw Hin].
  destruct (available_spec history Hwf) as [_ Hav].
  destruct (In_interval_dec (_history_available_interval history) x)
    as [Hc|Hc].
  - left. apply Hav in Hc. destruct Hc as [k [Hk Hxk]].
    exists k. split; [|exact Hxk]. apply populate_keys_grow. exact Hk.
  - assert (Hm : In_interval x
                   (_get_missing_intervals history (T start) (T end_))).
    { apply Hin. split; [apply open_spec; simpl; exact Hx|].
      intros Hc'. apply Hc. apply Hav. exact Hc'. }
    destruct Hm as [a [Ha Hxa]].
    assert (Hg : In [a] (Interval_iter
                           (_get_missing_intervals history
                                                   (T start) (T end_)))).
    { rewrite (Interval_iter_of_proper _ (wf_proper _ Hw)).
      apply in_map_iff. eauto. }
    destruct (In_atomic_open_or_bound a x Hxa) as [Ho|[t [Ht Hb]]].
    + left. exists (open (lower a) (upper a)). split; [|exact Ho].
      apply (populate_finished_keys read_raw_history fuel _ node history
               Hs [a] Hg).
    + right. exists [a], t. auto.
Qed.

End Coverage.

(** ** Asking again *)

Lemma half_not_integer (u t : Z) : ~ (inject_Z u + (1 # 2) == inject_Z t)%Q.
Proof.
  intros H. unfold Qeq, Qplus, inject_Z in H. cbn [Qnum Qden] in H. lia.
Qed.

(** A proper atomic interval all of whose points are timestamps is a single
    point. *)
Lemma integer_points_singleton (a : Atomic) :
  proper a ->
  (forall x, In_atomic x a -> exists t, (x == inject_Z t)%Q) ->
  lower a = upper a.
Proof.
  destruct a as [l lo up r]. unfold proper, properb, In_atomic. simpl.
  intros Hp Hall.
  assert (Hhalf : forall u, above l lo (inject_Z u + (1 # 2)) ->
                            below r up (inject_Z u + (1 # 2)) -> False).
  { intros u H1 H2. destruct (Hall _ (conj H1 H2)) as [t Ht].
    exact (half_not_integer u t Ht). }
  clear Hall.
  destruct lo as [|tl|], up as [|tu|];
    try (exfalso; clear Hhalf; qorder; fail).
  - exfalso.
    assert (E : inject_Z tu = (inject_Z (tu - 1) + 1)%Q).
    { change 1%Q with (inject_Z 1). rewrite <- inject_Z_plus.
      f_equal. lia. }
    apply (Hhalf (tu - 1)%Z); simpl; auto. rewrite E.
    destruct r; lra.
  - exfalso. apply (Hhalf 0%Z); simpl; auto.
  - destruct (Z.eq_dec tl tu) as [->|Hne]; [reflexivity|].
    exfalso.
    assert (Hlt : (tl < tu)%Z).
    { clear Hhalf. unfold xltb, xeqb in Hp. simpl in Hp.
      destruct (Z.compare_spec tl tu); try lia; discriminate. }
    assert (Hq : (inject_Z tl + 1 <= inject_Z tu)%Q).
    { change 1%Q with (inject_Z 1). rewrite <- inject_Z_plus.
      rewrite <- Zle_Qle. lia. }
    apply (Hhalf tl); simpl; [destruct l; lra|destruct r; lra].
  - exfalso. apply (Hhalf tl); simpl; auto. destruct l; lra.
Qed.

Lemma open_same (lo : xtime) : open lo lo = [].
Proof.
  unfold open, from_atomic. destruct lo; simpl; auto.
  unfold xltb, xeqb. simpl. rewrite Z.compare_refl. reflexivity.
Qed.

Lemma and_atomic_nil_l (j : Interval) : and_atomic [] j = [].
Proof.
  unfold and_atomic.
  assert (Hlo : forall l r up, from_atomic l PInf up r = []).
  { intros l r up. unfold from_atomic, xltb, xeqb.
    destruct up; reflexivity. }
  assert (Hmax : forall b, xmax PInf b = PInf)
    by (intros b; destruct b; reflexivity).
  change (Interval_lower []) with PInf. rewrite Hmax.
  destruct (xeqb PInf (Interval_lower j));
    destruct (xeqb (Interval_upper []) (Interval_upper j));
    cbv beta iota; apply Hlo.
Qed.

Lemma Interval_and_nil_l (j : Interval) : Interval_and [] j = [].
Proof.
  unfold Interval_and. destruct (Interval_atomic [] && Interval_atomic j).
  - apply and_atomic_nil_l.
  - reflexivity.
Qed.

Lemma taken_nil_key (start end_ : xtime) (v : list DataValue) :
  taken start end_ ([], v) = [].
Proof. unfold taken. rewrite Interval_and_nil_l. reflexivity. Qed.

Lemma dvs_from_cache_set_nil (d : dict) (v : list DataValue)
    (start end_ : xtime) :
  _dvs_from_cache (dict_set d [] v) start end_
  = _dvs_from_cache d start end_.
Proof.
  rewrite !dvs_from_cache_taken.
  induction d as [|[k' v'] d IH]; simpl.
  - rewrite Interval_and_nil_l. reflexivity.
  - destruct (Interval_eqb k' []) eqn:E.
    + apply Interval_eqb_eq in E. subst k'.
      change (flat_map (taken start end_) (([], v) :: d))
        with (taken start end_ ([], v) ++ flat_map (taken start end_) d).
      rewrite taken_nil_key. rewrite Interval_and_nil_l. reflexivity.
    + change (flat_map (taken start end_) ((k', v') :: dict_set d [] v))
        with (taken start end_ (k', v')
              ++ flat_map (taken start end_) (dict_set d [] v)).
      rewrite IH. reflexivity.
Qed.

Section AskingAgain.

Context {exn Node : Type}.
Variable read_raw_history : Node -> xtime -> xtime -> Node * page exn.

Lemma populate_empty_spans (fuel : nat) (intervals : list Interval)
    (start end_ : xtime) :
  Forall (fun m => open (Interval_lower m) (Interval_upper m) = [])
         intervals ->
  forall (node : Node) (history : dict),
    _dvs_from_cache
      (value (_populate_cache read_raw_history fuel node history intervals))
      start end_
    = _dvs_from_cache history start end_.
Proof.
  induction 1 as [|m rest Hm Hrest IH]; intros node history; simpl.
  - reflexivity.
  - destruct (status (node_read_full_history read_raw_history fuel node
                        (Interval_lower m) (Interval_upper m)));
      simpl; auto.
    rewrite IH, Hm. apply dvs_from_cache_set_nil.
Qed.

(** What holds of C3 on every reachable cache: when [get_history(start,
    end)] has ended normally, the same call made again, however it ends,
    leaves the same points to be read. *)
Lemma repeated_call_same_points
    (fuel : nat) (node : Node) (history : dict) (start end_ : Z)
    (fuel' : nat) (node' : Node) :
  reachable read_raw_history history ->
  let r := get_history read_raw_history fuel node history start end_ in
  status r = Finished ->
  _dvs_from_cache
    (value (get_history read_raw_history fuel' node' (value r) start end_))
    (T start) (T end_)
  = _dvs_from_cache (value r) (T start) (T end_).
Proof.
  intros Hr r Hs. subst r.
  remember (get_history read_raw_history fuel node history start end_)
    as r eqn:Er.
  assert (Hr' : reachable read_raw_history (value r))
    by (rewrite Er; apply reach_call; exact Hr).
  pose proof (coverage_up_to_bounds read_raw_history fuel node history
                start end_ Hr) as Hcov.
  cbv zeta in Hcov. rewrite <- Er in Hcov. specialize (Hcov Hs).
  clear Er Hr Hs.
  rewrite (get_history_populate read_raw_history fuel' node' (value r)).
  destruct (reachable_keys read_raw_history (value r) Hr') as [Hwf _].
  destruct (missing_spec (value r) (T start) (T end_) Hwf) as [Hw Hin].
  apply populate_empty_spans.
  rewrite (Interval_iter_of_proper _ (wf_proper _ Hw)).
  rewrite Forall_map. apply Forall_forall. intros a Ha.
  change (Interval_lower [a]) with (lower a).
  change (Interval_upper [a]) with (upper a).
  assert (Hpa : proper a).
  { pose proof (wf_proper _ Hw) as Hp. rewrite Forall_forall in Hp.
    exact (Hp a Ha). }
  rewrite (integer_points_singleton a Hpa); [apply open_same|].
  intros x Hx.
  assert (Hm : In_interval x
                 (_get_missing_intervals (value r) (T start) (T end_)))
    by (exists a; split; assumption).
  apply Hin in Hm. destruct Hm as [Hreq Hnc].
  apply open_spec in Hreq. simpl in Hreq.
  destruct (Hcov x Hreq) as [Hc|[m [t [_ [Ht _]]]]].
  - exact (False_ind _ (Hnc Hc)).
  - exists t. exact Ht.
Qed.

End AskingAgain.

(** ** The cached part of a request *)

Lemma available_in_request_spec (history : dict) (start end_ : xtime) :
  Forall wf (keys history) ->
  wf (_get_available_interval history start end_)
  /\ forall x, In_interval x (_get_available_interval history start end_)
               <-> cached history x /\ In_interval x (open start end_).
Proof.
  intros Hk. unfold _get_available_interval.
  destruct (available_spec history Hk) as [Hwa Hina].
  destruct (Interval_and_spec (_history_available_interval history)
                              (open start end_)) as [Hw Hin].
  - apply wf_proper. exact Hwa.
  - apply from_atomic_proper.
  - split; [exact Hw|]. intros x. rewrite Hin, Hina. tauto.
Qed.

(** ** The page requests of the gap fetcher *)

Section Requests.

Context {exn Node : Type}.
Variable read_raw_history : Node -> xtime -> xtime -> Node * page exn.

Local Abbreviation fetch := (node_read_full_history read_raw_history).

Lemma fetch_first_request (fuel : nat) (node : Node) (start end_ : xtime) :
  exists rest,
    requests (fetch (S fuel) node start end_) = (start, end_) :: rest.
Proof.
  simpl. destruct (read_raw_history node start end_) as [node1 [vals|e]];
    [|eexists; reflexivity].
  destruct (last_value vals) as [last|]; [|eexists; reflexivity].
  destruct (xeqb start (T (SourceTimestamp last))); [eexists; reflexivity|].
  destruct (xltb end_ start); eexists; reflexivity.
Qed.

(** When [start] is after [end], the loop makes its one request and stops:
    the test of line 20 comes after the request. *)
Lemma fetch_start_after_end (fuel : nat) (node : Node) (start end_ : xtime)
    (node' : Node) (vals : list DataValue) :
  xltb end_ start = true ->
  read_raw_history node start end_ = (node', Vals vals) ->
  fetch (S fuel) node start end_
  = mkRun Finished vals node' [(start, end_)].
Proof.
  intros Hlt Hr. simpl. rewrite Hr.
  destruct (last_value vals) as [last|]; [|reflexivity].
  destruct (xeqb start (T (SourceTimestamp last))); [reflexivity|].
  rewrite Hlt. reflexivity.
Qed.

Hypothesis contract : pages_sorted_in_range read_raw_history.

Lemma fetch_requests_in_range (fuel : nat) :
  forall (node : Node) (start end_ : xtime),
    xleb start end_ = true ->
    Forall (fun q => xleb start (fst q) = true
                     /\ xleb (fst q) end_ = true /\ snd q = end_)
           (requests (fetch fuel node start end_)).
Proof.
  induction fuel as [|fuel IH]; intros node start end_ Hle; simpl.
  - constructor.
  - assert (H0 : xleb start start = true /\ xleb start end_ = true
                 /\ end_ = end_)
      by (split; [apply xleb_refl|auto]).
    destruct (read_raw_history node start end_) as [node1 [vals|e]] eqn:Er;
      [|repeat constructor; simpl; tauto].
    destruct (last_value vals) as [last|] eqn:El;
      [|repeat constructor; simpl; tauto].
    destruct (xeqb start (T (SourceTimestamp last)));
      [repeat constructor; simpl; tauto|].
    destruct (xltb end_ start); [repeat constructor; simpl; tauto|].
    simpl. constructor; [simpl; tauto|].
    destruct (contract _ _ _ _ _ Er) as [_ Hw].
    destruct (last_value_app _ _ El) as [front Hf].
    unfold within in Hw. rewrite Forall_forall in Hw.
    destruct (Hw last) as [H1 H2].
    { subst vals. apply in_or_app. right. now left. }
    eapply Forall_impl; [|apply IH; exact H2].
    simpl. intros q [H3 [H4 H5]]. repeat split; auto.
    eapply xleb_trans; eauto.
Qed.

End Requests.

(** ** Reading one entry *)

Lemma taken_open (s e l u : Z) (dvs : list DataValue) :
  taken (T s) (T e) (open (T l) (T u), dvs)
  = if (Z.max l s <? Z.min u e)%Z
    then _get_partial_dvs (T (Z.max l s)) (T (Z.min u e)) dvs
    else [].
Proof.
  unfold taken, open, from_atomic, is_inf.
  unfold Z.max, Z.min, Z.ltb, xltb, xeqb, Bound_eqb. simpl.
  destruct (Z.compare_spec l u) as [E1|E1|E1];
    destruct (Z.compare_spec s e) as [E2|E2|E2]; simpl;
    rewrite ?Interval_and_nil_l, ?Interval_and_nil_r; simpl.
  all: try (zcases; reflexivity).
  all: unfold Interval_and, and_atomic; simpl;
    unfold from_atomic, is_inf, xeqb, xltb, xmax, xmin, xltb, Bound_eqb;
    simpl; zcases; try reflexivity.
Qed.

Lemma xleb_T (a b : Z) : xleb (T a) (T b) = true <-> (a <= b)%Z.
Proof.
  unfold xleb. simpl. destruct (Z.compare_spec a b); split; intros;
    try lia; try discriminate; reflexivity.
Qed.

Lemma read_path_spec (history : dict) (s e : Z) (v : DataValue) :
  timestamp_keys history ->
  (In v (_dvs_from_cache history (T s) (T e))
   <-> exists (l u : Z) (dvs : list DataValue),
         In (open (T l) (T u), dvs) history
         /\ In v dvs
         /\ (Z.max l s < Z.min u e)%Z
         /\ (Z.max l s <= SourceTimestamp v <= Z.min u e)%Z).
Proof.
  intros Hk. rewrite dvs_from_cache_taken, in_flat_map. split.
  - intros [[k dvs] [Hin Hv]].
    assert (Hkk : exists l u : Z, k = open (T l) (T u)).
    { unfold timestamp_keys in Hk. rewrite Forall_forall in Hk.
      apply Hk. unfold keys. apply (in_map fst _ _ Hin). }
    destruct Hkk as [l [u ->]]. rewrite taken_open in Hv.
    destruct (Z.ltb_spec (Z.max l s) (Z.min u e)) as [Hlt|Hge];
      [|destruct Hv].
    unfold _get_partial_dvs in Hv. apply filter_In in Hv.
    destruct Hv as [Hv Hb]. apply andb_true_iff in Hb.
    rewrite !xleb_T in Hb. exists l, u, dvs. auto.
  - intros [l [u [dvs [Hin [Hv [Hlt Hb]]]]]].
    exists (open (T l) (T u), dvs). split; [exact Hin|].
    rewrite taken_open. apply Z.ltb_lt in Hlt. rewrite Hlt.
    unfold _get_partial_dvs. apply filter_In. split; [exact Hv|].
    apply andb_true_iff. rewrite !xleb_T. exact Hb.
Qed.

(** ** The first query and a narrower one *)

Lemma missing_fresh (start end_ : Z) :
  (start < end_)%Z ->
  _get_missing_intervals [] (T start) (T end_) = open (T start) (T end_).
Proof.
  intros H. unfold _get_missing_intervals, _get_available_interval.
  change (_history_available_interval []) with (@nil Atomic).
  rewrite Interval_and_nil_l.
  change (Interval_invert []) with [mkAtomic OPEN NInf PInf OPEN].
  rewrite (open_nonempty _ _ H).
  unfold Interval_and, and_atomic. simpl.
  unfold from_atomic, xltb. simpl.
  rewrite (proj2 (Z.compare_lt_iff _ _) H). reflexivity.
Qed.

Section FirstQuery.

Context {exn Node : Type}.
Variable read_raw_history : Node -> xtime -> xtime -> Node * page exn.

Lemma first_query_aux (fuel : nat) (node : Node) (start end_ : Z) :
  (start < end_)%Z ->
  let r := get_history read_raw_history fuel node [] start end_ in
  let dvs :=
    node_read_full_history read_raw_history fuel node (T start) (T end_) in
  status r = status dvs
  /\ requests r = requests dvs
  /\ node_after r = node_after dvs
  /\ value r = match status dvs with
               | Finished => [(open (T start) (T end_), value dvs)]
               | _ => []
               end.
Proof.
  intros H r dvs. subst r dvs.
  rewrite get_history_populate, (missing_fresh _ _ H), (open_nonempty _ _ H).
  unfold Interval_iter, from_atomic, xltb. simpl.
  rewrite (proj2 (Z.compare_lt_iff _ _) H). simpl.
  change (Interval_upper [mkAtomic OPEN (T start) (T end_) OPEN])
    with (T end_).
  destruct (status (node_read_full_history read_raw_history fuel node
                      (T start) (T end_))) eqn:Es; simpl;
    repeat split; auto using app_nil_r.
  rewrite (open_nonempty _ _ H). reflexivity.
Qed.

Lemma single_entry_covered (s e s' e' : Z) (vals : list DataValue) :
  (s <= s')%Z -> (e' <= e)%Z ->
  covered [(open (T s) (T e), vals)] s' e'.
Proof.
  intros H1 H2 x [Hx1 Hx2]. exists (open (T s) (T e)).
  split; [now left|]. apply open_spec. simpl.
  rewrite Zle_Qle in H1, H2. split; lra.
Qed.

Lemma narrowing_aux (fuel : nat) (node : Node) (s e s' e' : Z)
    (vals : list DataValue) :
  (s <= s')%Z -> (s' < e')%Z -> (e' <= e)%Z ->
  let history := [(open (T s) (T e), vals)] in
  get_history read_raw_history fuel node history s' e'
  = mkRun Finished history node []
  /\ _dvs_from_cache history (T s') (T e')
     = _get_partial_dvs (T s') (T e') vals.
Proof.
  intros H1 H2 H3 history. split.
  - unfold get_history.
    rewrite (covered_missing_empty history s' e'); [reflexivity| |].
    + repeat constructor; apply from_atomic_wf.
    + apply single_entry_covered; assumption.
  - subst history. rewrite dvs_from_cache_taken. cbn [flat_map].
    rewrite taken_open, app_nil_r.
    rewrite (Z.max_r s s') by lia. rewrite (Z.min_r e e') by lia.
    apply Z.ltb_lt in H2. rewrite H2. reflexivity.
Qed.

Lemma populate_cons (fuel : nat) (node : Node) (history : dict)
    (m : Interval) (rest : list Interval) :
  _populate_cache read_raw_history fuel node history (m :: rest)
  = let dvs := node_read_full_history read_raw_history fuel node
                 (Interval_lower m) (Interval_upper m) in
    match status dvs with
    | Finished =>
        let r := _populate_cache read_raw_history fuel (node_after dvs)
                   (dict_set history
                      (open (Interval_lower m) (Interval_upper m))
                      (value dvs)) rest in
        mkRun (status r) (value r) (node_after r)
              (requests dvs ++ requests r)
    | st => mkRun st history (node_after dvs) (requests dvs)
    end.
Proof. reflexivity. Qed.

(** A range that is not covered is fetched: no page request means the range
    was covered. *)
Lemma no_request_covered (fuel : nat) (node : Node) (history : dict)
    (start end_ : Z) :
  Forall wf (keys history) ->
  requests (get_history read_raw_history (S fuel) node history start end_)
  = [] ->
  covered history start end_.
Proof.
  intros Hk Hreq.
  destruct (missing_spec history (T start) (T end_) Hk) as [Hw Hin].
  destruct (available_spec history Hk) as [_ Hav].
  rewrite get_history_populate in Hreq.
  rewrite (Interval_iter_of_proper _ (wf_proper _ Hw)) in Hreq.
  destruct (_get_missing_intervals history (T start) (T end_))
    as [|a rest] eqn:Em.
  - intros x Hx.
    destruct (In_interval_dec (_history_available_interval history) x)
      as [Hc|Hc]; [apply Hav; exact Hc|].
    exfalso. apply (In_interval_nil x). apply Hin.
    split; [apply open_spec; exact Hx|].
    intros Hc'. apply Hc. apply Hav. exact Hc'.
  - exfalso. cbn [map] in Hreq. rewrite populate_cons in Hreq.
    cbv zeta in Hreq.
    change (Interval_lower [a]) with (lower a) in Hreq.
    change (Interval_upper [a]) with (upper a) in Hreq.
    destruct (fetch_first_request read_raw_history fuel node
                (lower a) (upper a)) as [more E].
    destruct (status _) in Hreq; cbn [requests] in Hreq;
      rewrite E in Hreq; discriminate.
Qed.

Hypothesis contract : pages_sorted_in_range read_raw_history.

Lemma populate_requests_in_range (fuel : nat) (lo hi : xtime)
    (intervals : list Interval) :
  Forall (fun m => xleb lo (Interval_lower m) = true
                   /\ xleb (Interval_lower m) (Interval_upper m) = true
                   /\ xleb (Interval_upper m) hi = true) intervals ->
  forall (node : Node) (history : dict),
    Forall (fun q => xleb lo (fst q) = true
                     /\ xleb (fst q) (snd q) = true
                     /\ xleb (snd q) hi = true)
           (requests (_populate_cache read_raw_history fuel node history
                                      intervals)).
Proof.
  induction 1 as [|m rest [H1 [H2 H3]] Hrest IH]; intros node history; simpl.
  - constructor.
  - assert (Hf : Forall (fun q => xleb lo (fst q) = true
                                  /\ xleb (fst q) (snd q) = true
                                  /\ xleb (snd q) hi = true)
                        (requests (node_read_full_history read_raw_history
                                     fuel node (Interval_lower m)
                                     (Interval_upper m)))).
    { eapply Forall_impl;
        [|apply (fetch_requests_in_range read_raw_history contract
                   fuel node _ _ H2)].
      simpl. intros q [H4 [H5 H6]]. rewrite H6. repeat split; auto.
      eapply xleb_trans; eauto. }
    destruct (status _); simpl; auto.
    apply Forall_app. split; [exact Hf|apply IH].
Qed.

Lemma proper_lower_upper (a : Atomic) :
  proper a -> xleb (lower a) (upper a) = true.
Proof.
  destruct a as [l lo up r]. unfold proper, properb. simpl. intros H.
  qorder.
Qed.

Lemma get_history_requests_in_range_aux (fuel : nat) (node : Node)
    (history : dict) (start end_ : Z) :
  Forall wf (keys history) ->
  (start < end_)%Z ->
  Forall (fun q => xleb (T start) (fst q) = true
                   /\ xleb (fst q) (snd q) = true
                   /\ xleb (snd q) (T end_) = true)
         (requests (get_history read_raw_history fuel node history
                                start end_)).
Proof.
  intros Hk Hlt. rewrite get_history_populate.
  destruct (missing_spec history (T start) (T end_) Hk) as [Hw _].
  apply populate_requests_in_range.
  rewrite (Interval_iter_of_proper _ (wf_proper _ Hw)).
  rewrite Forall_map. apply Forall_forall. intros a Ha.
  change (Interval_lower [a]) with (lower a).
  change (Interval_upper [a]) with (upper a).
  pose proof (Interval_and_request_bounds
                (Interval_invert
                   (_get_available_interval history (T start) (T end_)))
                start end_ Hlt) as Hb.
  fold (_get_missing_intervals history (T start) (T end_)) in Hb.
  rewrite Forall_forall in Hb. destruct (Hb a Ha) as [H1 H2].
  repeat split; auto. apply proper_lower_upper.
  pose proof (wf_proper _ Hw) as Hp. rewrite Forall_forall in Hp.
  exact (Hp a Ha).
Qed.

End FirstQuery.

(** ** The keys of the cache are intervals between timestamps *)

Lemma timestamp_keys_dict_set (d : dict) (l u : Z) (v : list DataValue) :
  timestamp_keys d -> timestamp_keys (dict_set d (open (T l) (T u)) v).
Proof.
  unfold timestamp_keys. intros H.
  destruct (keys_dict_set d (open (T l) (T u)) v) as [-> | ->]; auto.
  apply Forall_app. split; auto. repeat constructor. eauto.
Qed.

Lemma gaps_between_timestamps (history : dict) (start end_ : Z) :
  Forall wf (keys history) ->
  Forall (fun m => exists l u : Z,
                     Interval_lower m = T l /\ Interval_upper m = T u)
         (Interval_iter (_get_missing_intervals history (T start) (T end_))).
Proof.
  intros Hk.
  destruct (Z_lt_ge_dec start end_) as [Hlt|Hge].
  - destruct (missing_spec history (T start) (T end_) Hk) as [Hw _].
    rewrite (Interval_iter_of_proper _ (wf_proper _ Hw)).
    rewrite Forall_map. apply Forall_forall. intros a Ha.
    change (Interval_lower [a]) with (lower a).
    change (Interval_upper [a]) with (upper a).
    pose proof (Interval_and_request_bounds
                  (Interval_invert
                     (_get_available_interval history (T start) (T end_)))
                  start end_ Hlt) as Hb.
    fold (_get_missing_intervals history (T start) (T end_)) in Hb.
    rewrite Forall_forall in Hb. destruct (Hb a Ha) as [H1 H2].
    pose proof (wf_proper _ Hw) as Hp. rewrite Forall_forall in Hp.
    pose proof (proper_lower_upper a (Hp a Ha)) as H3.
    destruct (lower a) as [|l|], (upper a) as [|u|];
      try discriminate; eauto.
  - rewrite (missing_degenerate history start end_ Hge). constructor.
Qed.

Section TimestampKeys.

Context {exn Node : Type}.
Variable read_raw_history : Node -> xtime -> xtime -> Node * page exn.

Lemma populate_timestamp_keys (fuel : nat) (intervals : list Interval) :
  Forall (fun m => exists l u : Z,
                     Interval_lower m = T l /\ Interval_upper m = T u)
         intervals ->
  forall (node : Node) (history : dict),
    timestamp_keys history ->
    timestamp_keys
      (value (_populate_cache read_raw_history fuel node history intervals)).
Proof.
  induction 1 as [|m rest [l [u [E1 E2]]] Hrest IH]; intros node history Hh;
    simpl.
  - exact Hh.
  - destruct (status _); simpl; auto.
    apply IH. rewrite E1, E2. apply timestamp_keys_dict_set. exact Hh.
Qed.

Lemma Forall_firstn {A : Type} (P : A -> Prop) (n : nat) (l : list A) :
  Forall P l -> Forall P (firstn n l).
Proof.
  intros H. rewrite <- (firstn_skipn n l) in H.
  apply Forall_app in H. tauto.
Qed.

Lemma reachable_timestamp_keys (history : dict) :
  reachable read_raw_history history -> timestamp_keys history.
Proof.
  intros Hr.
  induction Hr as [|fuel node h start end_ Hr IH
                   |fuel node h start end_ n Hr IH].
  - constructor.
  - rewrite get_history_populate. apply populate_timestamp_keys; auto.
    apply gaps_between_timestamps.
    apply (reachable_keys read_raw_history h Hr).
  - apply populate_timestamp_keys; auto. apply Forall_firstn.
    apply gaps_between_timestamps.
    apply (reachable_keys read_raw_history h Hr).
Qed.

End TimestampKeys.

(** ** Further properties of the cache *)

(** X1: [_history_available_interval] returns a well-formed interval whose
    points are exactly the points of the keys of the dict; on the empty dict
    it is the empty interval. *)
Theorem available_interval_is_union (history : dict) :
  Forall wf (keys history) ->
  wf (_history_available_interval history)
  /\ (forall x, In_interval x (_history_available_interval history)
                <-> cached history x)
  /\ (history = [] -> _history_available_interval history = empty).
Proof.
  intros Hk. destruct (available_spec history Hk) as [H1 H2].
  split; [exact H1|]. split; [exact H2|]. intros E. rewrite E. reflexivity.
Qed.

(** X2: [_get_available_interval(start, end)] returns a well-formed interval
    whose points are exactly the cached points of the open range from
    [start] to [end]. *)
Theorem available_in_request (history : dict) (start end_ : xtime) :
  Forall wf (keys history) ->
  wf (_get_available_interval history start end_)
  /\ forall x, In_interval x (_get_available_interval history start end_)
               <-> cached history x /\ In_interval x (open start end_).
Proof. apply available_in_request_spec. Qed.

(** X3: [_get_missing_intervals(start, end)] returns a well-formed interval
    whose points are exactly the points of the open range from [start] to
    [end] that are in no key. *)
Theorem missing_is_uncached_request (history : dict) (start end_ : xtime) :
  Forall wf (keys history) ->
  wf (_get_missing_intervals history start end_)
  /\ forall x, In_interval x (_get_missing_intervals history start end_)
               <-> In_interval x (open start end_) /\ ~ cached history x.
Proof. apply missing_spec. Qed.

Section Extra.

Context {exn Node : Type}.
Variable read_raw_history : Node -> xtime -> xtime -> Node * page exn.

(** X4: when every page of the source is sorted and holds only points of the
    requested range, and [start <= end], what [node_read_full_history]
    yields is sorted ascending and within the closed range from [start] to
    [end], and every page request it makes has [endtime = end] and a
    [starttime] between [start] and [end]. *)
Theorem fetch_sorted_in_range
    (fuel : nat) (node : Node) (start end_ : xtime) :
  pages_sorted_in_range read_raw_history ->
  xleb start end_ = true ->
  let r := node_read_full_history read_raw_history fuel node start end_ in
  ascending (value r)
  /\ within start end_ (value r)
  /\ Forall (fun q => xleb start (fst q) = true
                      /\ xleb (fst q) end_ = true /\ snd q = end_)
            (requests r).
Proof.
  intros Hc Hle r. subst r.
  destruct (fetch_ascending_within read_raw_history Hc fuel node start end_)
    as [H1 H2].
  repeat split; auto. apply fetch_requests_in_range; assumption.
Qed.

(** X5: when [start] is after [end], [node_read_full_history] still makes
    one page request, yields what it returns, and stops. *)
Theorem fetch_start_after_end_once
    (fuel : nat) (node : Node) (start end_ : xtime)
    (node' : Node) (vals : list DataValue) :
  xltb end_ start = true ->
  read_raw_history node start end_ = (node', Vals vals) ->
  node_read_full_history read_raw_history (S fuel) node start end_
  = mkRun Finished vals node' [(start, end_)].
Proof. apply fetch_start_after_end. Qed.

(** X6: on an empty cache, [get_history(start, end)] with [start < end]
    makes exactly the page requests of one run of the gap fetcher over
    [start .. end] and ends as that run ends; when it ends normally the
    dict holds one entry, under the open interval from [start] to [end],
    with everything the fetcher yielded; otherwise the dict stays empty. *)
Theorem first_query_stores_one_entry
    (fuel : nat) (node : Node) (start end_ : Z) :
  (start < end_)%Z ->
  let r := get_history read_raw_history fuel node [] start end_ in
  let dvs :=
    node_read_full_history read_raw_history fuel node (T start) (T end_) in
  status r = status dvs
  /\ requests r = requests dvs
  /\ node_after r = node_after dvs
  /\ value r = match status dvs with
               | Finished => [(open (T start) (T end_), value dvs)]
               | _ => []
               end.
Proof. apply first_query_aux. Qed.

(** X7: on a cache built by [get_history] calls, the read path yields a
    point exactly when it is stored in an entry whose key, an open interval
    from [l] to [u], overlaps the requested open range, and its timestamp
    lies between the larger of the lower bounds and the smaller of the upper
    bounds, the bounds included. *)
Theorem read_path_yields_closed_intersections
    (history : dict) (s e : Z) (v : DataValue) :
  reachable read_raw_history history ->
  (In v (_dvs_from_cache history (T s) (T e))
   <-> exists (l u : Z) (dvs : list DataValue),
         In (open (T l) (T u), dvs) history
         /\ In v dvs
         /\ (Z.max l s < Z.min u e)%Z
         /\ (Z.max l s <= SourceTimestamp v <= Z.min u e)%Z).
Proof.
  intros Hr. apply read_path_spec.
  apply (reachable_timestamp_keys read_raw_history). exact Hr.
Qed.

(** X8: after a first query [get_history(start, end)] on an empty cache has
    ended normally, a query for a range within [start .. end] makes no page
    request, leaves the dict as it is, and yields the fetched points whose
    timestamps lie in the narrower range, bounds included, in the order in
    which they were fetched. *)
Theorem narrower_query_served_from_cache
    (fuel : nat) (node : Node) (start end_ : Z)
    (fuel' : nat) (node' : Node) (s' e' : Z) :
  (start <= s')%Z -> (s' < e')%Z -> (e' <= end_)%Z ->
  let r := get_history read_raw_history fuel node [] start end_ in
  status r = Finished ->
  let r' := get_history read_raw_history fuel' node' (value r) s' e' in
  requests r' = []
  /\ status r' = Finished
  /\ node_after r' = node'
  /\ value r' = value r
  /\ _dvs_from_cache (value r') (T s') (T e')
     = _get_partial_dvs (T s') (T e')
         (value (node_read_full_history read_raw_history fuel node
                   (T start) (T end_))).
Proof.
  intros H1 H2 H3 r Hs r'. subst r'.
  assert (Hlt : (start < end_)%Z) by lia.
  destruct (first_query_aux read_raw_history fuel node start end_ Hlt)
    as [E1 [_ [_ E4]]].
  fold r in E1, E4. rewrite Hs in E1. rewrite <- E1 in E4.
  rewrite E4.
  destruct (narrowing_aux read_raw_history fuel' node' start end_ s' e'
              (value (node_read_full_history read_raw_history fuel node
                        (T start) (T end_))) H1 H2 H3) as [E5 E6].
  cbv zeta in E5, E6. rewrite E5. simpl. repeat split; auto.
Qed.

(** X9: with fuel for at least one page request, a call of [get_history]
    that makes no page request was for a range that the keys already
    covered. *)
Theorem no_request_only_if_covered
    (fuel : nat) (node : Node) (history : dict) (start end_ : Z) :
  Forall wf (keys history) ->
  requests (get_history read_raw_history (S fuel) node history start end_)
  = [] ->
  covered history start end_.
Proof. apply no_request_covered. Qed.

(** X10: when every page of the source is sorted and holds only points of
    the requested range, every page request that [get_history(start, end)]
    makes, for [start < end], asks for a range within [start .. end]:
    [start <= starttime <= endtime <= end]. *)
Theorem requests_within_requested_range
    (fuel : nat) (node : Node) (history : dict) (start end_ : Z) :
  pages_sorted_in_range read_raw_history ->
  Forall wf (keys history) ->
  (start < end_)%Z ->
  Forall (fun q => xleb (T start) (fst q) = true
                   /\ xleb (fst q) (snd q) = true
                   /\ xleb (snd q) (T end_) = true)
         (requests (get_history read_raw_history fuel node history
                                start end_)).
Proof.
  intros Hc. apply get_history_requests_in_range_aux. exact Hc.
Qed.

(** X11: on a cache built by [get_history] calls, one more call, however it
    ends, removes no key and leaves the entry under every non-empty key as
    it was; when it ends with an error, the dict is the one left by the gaps
    filled before the failing one, and the fetch for that gap is what
    raised. *)
Theorem call_keeps_entries
    (fuel : nat) (node : Node) (history : dict) (start end_ : Z) :
  reachable read_raw_history history ->
  let r := get_history read_raw_history fuel node history start end_ in
  let gaps :=
    Interval_iter (_get_missing_intervals history (T start) (T end_)) in
  (forall q, In q (keys history) -> In q (keys (value r)))
  /\ (forall q v, q <> [] -> dict_get history q = Some v ->
                  dict_get (value r) q = Some v)
  /\ (forall e, status r = Raised e ->
       exists pre m post,
         gaps = pre ++ m :: post
         /\ status (_populate_cache read_raw_history fuel node history pre)
            = Finished
         /\ value r
            = value (_populate_cache read_raw_history fuel node history pre)
         /\ status (node_read_full_history read_raw_history fuel
                      (node_after (_populate_cache read_raw_history fuel
                                     node history pre))
                      (Interval_lower m) (Interval_upper m)) = Raised e).
Proof. apply get_history_keeps. Qed.

(** X12: on a cache built by [get_history] calls, after a call of
    [get_history(start, end)] that ended normally, every point of the open
    range from [start] to [end] is in a key, or it is the lower or the upper
    bound of one of the gaps that the call filled. *)
Theorem call_covers_up_to_gap_bounds
    (fuel : nat) (node : Node) (history : dict) (start end_ : Z) :
  reachable read_raw_history history ->
  let r := get_history read_raw_history fuel node history start end_ in
  let gaps :=
    Interval_iter (_get_missing_intervals history (T start) (T end_)) in
  status r = Finished ->
  forall x : Q,
    (inject_Z start < x < inject_Z end_)%Q ->
    cached (value r) x
    \/ exists m t, In m gaps /\ (x == inject_Z t)%Q
                   /\ (Interval_lower m = T t \/ Interval_upper m = T t).
Proof. apply coverage_up_to_bounds. Qed.

(** X13: on a cache built by [get_history] calls, when
    [get_history(start, end)] has ended normally, the same call made again,
    however it ends and whatever the source does, leaves the same sequence
    of points to be read for [start .. end]. *)
Theorem asking_again_same_points
    (fuel : nat) (node : Node) (history : dict) (start end_ : Z)
    (fuel' : nat) (node' : Node) :
  reachable read_raw_history history ->
  let r := get_history read_raw_history fuel node history start end_ in
  status r = Finished ->
  _dvs_from_cache
    (value (get_history read_raw_history fuel' node' (value r) start end_))
    (T start) (T end_)
  = _dvs_from_cache (value r) (T start) (T end_).
Proof. apply repeated_call_same_points. Qed.

End Extra.

(** ** The further properties at concrete inputs *)

Lemma keys_after_5_15 :
  keys (value after_5_15) = [open (T 0) (T 10); open (T 10) (T 15)].
Proof. vm_compute. reflexivity. Qed.

Lemma wf_keys_after_5_15 : Forall wf (keys (value after_5_15)).
Proof.
  rewrite keys_after_5_15. repeat constructor; apply from_atomic_wf.
Qed.

Lemma wf_keys_after_0_10 : Forall wf (keys (value after_0_10)).
Proof.
  assert (E : keys (value after_0_10) = [open (T 0) (T 10)])
    by (vm_compute; reflexivity).
  rewrite E. repeat constructor; apply from_atomic_wf.
Qed.

Lemma reachable_c_after_10_30 : reachable node_c (value c_after_10_30).
Proof.
  unfold c_after_10_30. apply reach_call.
  unfold c_after_0_10. apply reach_call.
  unfold c_after_20_30. apply reach_call.
  unfold c_after_10_20. apply reach_call.
  apply reach_init.
Qed.

Lemma available_interval_is_union_witness :
  Forall wf (keys (value after_5_15))
  /\ wf (_history_available_interval (value after_5_15))
  /\ (forall x, In_interval x (_history_available_interval (value after_5_15))
                <-> cached (value after_5_15) x)
  /\ (value after_5_15 = [] ->
      _history_available_interval (value after_5_15) = empty).
Proof.
  split; [exact wf_keys_after_5_15|].
  exact (available_interval_is_union (value after_5_15) wf_keys_after_5_15).
Defined.

Lemma available_in_request_witness :
  Forall wf (keys (value after_5_15))
  /\ wf (_get_available_interval (value after_5_15) (T 5) (T 15))
  /\ forall x,
       In_interval x (_get_available_interval (value after_5_15)
                                              (T 5) (T 15))
       <-> cached (value after_5_15) x /\ In_interval x (open (T 5) (T 15)).
Proof.
  split; [exact wf_keys_after_5_15|].
  exact (available_in_request (value after_5_15) (T 5) (T 15)
                              wf_keys_after_5_15).
Defined.

Lemma missing_is_uncached_request_witness :
  Forall wf (keys (value after_5_15))
  /\ wf (_get_missing_intervals (value after_5_15) (T 5) (T 15))
  /\ forall x,
       In_interval x (_get_missing_intervals (value after_5_15)
                                             (T 5) (T 15))
       <-> In_interval x (open (T 5) (T 15)) /\ ~ cached (value after_5_15) x.
Proof.
  split; [exact wf_keys_after_5_15|].
  exact (missing_is_uncached_request (value after_5_15) (T 5) (T 15)
                                     wf_keys_after_5_15).
Defined.

Lemma fetch_sorted_in_range_witness :
  pages_sorted_in_range node_a
  /\ xleb (T 0) (T 10) = true
  /\ ascending (value (node_read_full_history node_a 9 tt (T 0) (T 10)))
  /\ within (T 0) (T 10)
            (value (node_read_full_history node_a 9 tt (T 0) (T 10)))
  /\ Forall (fun q => xleb (T 0) (fst q) = true
                      /\ xleb (fst q) (T 10) = true /\ snd q = T 10)
            (requests (node_read_full_history node_a 9 tt (T 0) (T 10))).
Proof.
  split; [exact node_a_contract|]. split; [reflexivity|].
  exact (fetch_sorted_in_range node_a 9 tt (T 0) (T 10) node_a_contract
                               eq_refl).
Defined.

Lemma fetch_start_after_end_once_witness :
  xltb (T 0) (T 10) = true
  /\ node_d tt (T 10) (T 0) = (tt, Vals [dv 7])
  /\ node_read_full_history node_d 4 tt (T 10) (T 0)
     = mkRun Finished [dv 7] tt [(T 10, T 0)].
Proof.
  split; [reflexivity|]. split; [reflexivity|].
  exact (fetch_start_after_end_once node_d 3 tt (T 10) (T 0) tt [dv 7]
                                    eq_refl eq_refl).
Defined.

Lemma first_query_stores_one_entry_witness :
  (0 < 10)
  /\ status after_0_10
     = status (node_read_full_history node_a 9 tt (T 0) (T 10))
  /\ requests after_0_10
     = requests (node_read_full_history node_a 9 tt (T 0) (T 10))
  /\ node_after after_0_10
     = node_after (node_read_full_history node_a 9 tt (T 0) (T 10))
  /\ value after_0_10
     = match status (node_read_full_history node_a 9 tt (T 0) (T 10)) with
       | Finished =>
           [(open (T 0) (T 10),
             value (node_read_full_history node_a 9 tt (T 0) (T 10)))]
       | _ => []
       end.
Proof.
  assert (H : 0 < 10) by lia.
  split; [exact H|].
  exact (first_query_stores_one_entry node_a 9 tt 0 10 H).
Defined.

Lemma read_path_yields_closed_intersections_witness :
  reachable node_a (value after_5_15)
  /\ (In (dv 10) (_dvs_from_cache (value after_5_15) (T 5) (T 15))
      <-> exists (l u : Z) (dvs : list DataValue),
            In (open (T l) (T u), dvs) (value after_5_15)
            /\ In (dv 10) dvs
            /\ (Z.max l 5 < Z.min u 15)
            /\ (Z.max l 5 <= SourceTimestamp (dv 10) <= Z.min u 15)).
Proof.
  split; [exact reachable_after_5_15|].
  exact (read_path_yields_closed_intersections node_a (value after_5_15)
           5 15 (dv 10) reachable_after_5_15).
Defined.

Lemma narrower_query_served_from_cache_witness :
  (0 <= 5) /\ (5 < 7) /\ (7 <= 10)
  /\ status after_0_10 = Finished
  /\ requests (get_history node_a 9 tt (value after_0_10) 5 7) = []
  /\ status (get_history node_a 9 tt (value after_0_10) 5 7) = Finished
  /\ node_after (get_history node_a 9 tt (value after_0_10) 5 7) = tt
  /\ value (get_history node_a 9 tt (value after_0_10) 5 7)
     = value after_0_10
  /\ _dvs_from_cache (value (get_history node_a 9 tt (value after_0_10) 5 7))
                     (T 5) (T 7)
     = _get_partial_dvs (T 5) (T 7)
         (value (node_read_full_history node_a 9 tt (T 0) (T 10))).
Proof.
  assert (H1 : 0 <= 5) by lia. assert (H2 : 5 < 7) by lia.
  assert (H3 : 7 <= 10) by lia.
  assert (H4 : status after_0_10 = Finished) by (vm_compute; reflexivity).
  split; [exact H1|]. split; [exact H2|]. split; [exact H3|].
  split; [exact H4|].
  exact (narrower_query_served_from_cache node_a 9 tt 0 10 9 tt 5 7
           H1 H2 H3 H4).
Defined.

Lemma no_request_only_if_covered_witness :
  Forall wf (keys (value after_0_10))
  /\ requests (get_history node_a 9 tt (value after_0_10) 2 8) = []
  /\ covered (value after_0_10) 2 8.
Proof.
  assert (H : requests (get_history node_a 9 tt (value after_0_10) 2 8) = [])
    by (vm_compute; reflexivity).
  split; [exact wf_keys_after_0_10|]. split; [exact H|].
  exact (no_request_only_if_covered node_a 8 tt (value after_0_10) 2 8
           wf_keys_after_0_10 H).
Defined.

Lemma requests_within_requested_range_witness :
  pages_sorted_in_range node_a
  /\ Forall wf (keys (value after_0_10))
  /\ (5 < 15)
  /\ Forall (fun q => xleb (T 5) (fst q) = true
                      /\ xleb (fst q) (snd q) = true
                      /\ xleb (snd q) (T 15) = true)
            (requests after_5_15).
Proof.
  assert (H : 5 < 15) by lia.
  split; [exact node_a_contract|]. split; [exact wf_keys_after_0_10|].
  split; [exact H|].
  exact (requests_within_requested_range node_a 9 tt (value after_0_10)
           5 15 node_a_contract wf_keys_after_0_10 H).
Defined.

Lemma call_keeps_entries_witness :
  reachable node_c (value c_after_10_30)
  /\ (forall q, In q (keys (value c_after_10_30)) ->
                In q (keys (value c_after_0_30)))
  /\ (forall q v, q <> [] -> dict_get (value c_after_10_30) q = Some v ->
                  dict_get (value c_after_0_30) q = Some v).
Proof.
  split; [exact reachable_c_after_10_30|].
  destruct (call_keeps_entries node_c 9 (node_after c_after_10_30)
              (value c_after_10_30) 0 30 reachable_c_after_10_30)
    as [H1 [H2 _]].
  split; [exact H1|exact H2].
Defined.

Lemma call_covers_up_to_gap_bounds_witness :
  reachable node_a (value after_0_10)
  /\ status after_5_15 = Finished
  /\ forall x : Q,
       (inject_Z 5 < x < inject_Z 15)%Q ->
       cached (value after_5_15) x
       \/ exists m t,
            In m (Interval_iter
                    (_get_missing_intervals (value after_0_10) (T 5) (T 15)))
            /\ (x == inject_Z t)%Q
            /\ (Interval_lower m = T t \/ Interval_upper m = T t).
Proof.
  assert (H : status after_5_15 = Finished) by (vm_compute; reflexivity).
  split; [exact reachable_after_0_10|]. split; [exact H|].
  exact (call_covers_up_to_gap_bounds node_a 9 tt (value after_0_10) 5 15
           reachable_after_0_10 H).
Defined.

Lemma asking_again_same_points_witness :
  reachable node_a (value after_0_10)
  /\ status after_5_15 = Finished
  /\ _dvs_from_cache (value after_5_15_again) (T 5) (T 15)
     = _dvs_from_cache (value after_5_15) (T 5) (T 15).
Proof.
  assert (H : status after_5_15 = Finished) by (vm_compute; reflexivity).
  split; [exact reachable_after_0_10|]. split; [exact H|].
  exact (asking_again_same_points node_a 9 tt (value after_0_10) 5 15 9 tt
           reachable_after_0_10 H).
Defined.

(** ** The calls end when the pages of the source are within range *)

Section Ends.

Context {exn Node : Type}.
Variable read_raw_history : Node -> xtime -> xtime -> Node * page exn.

Local Abbreviation fetch := (node_read_full_history read_raw_history).
Local Abbreviation populate := (_populate_cache read_raw_history).

Local Abbreviation state_after := (node_after_requests read_raw_history).

(** The fetch leaves the node in the state in which its page requests,
    served one after another, leave it. *)
Lemma fetch_threads (fuel : nat) :
  forall (node : Node) (start end_ : xtime),
    node_after (fetch fuel node start end_)
    = state_after node (requests (fetch fuel node start end_)).
Proof.
  induction fuel as [|fuel IH]; intros node start end_.
  - reflexivity.
  - rewrite fetch_S.
    destruct (read_raw_history node start end_) as [node1 [vals|e']] eqn:Er.
    + assert (Hone : node1 = state_after node [(start, end_)])
        by (unfold node_after_requests; simpl; rewrite Er; reflexivity).
      destruct (last_value vals) as [last|]; [|exact Hone].
      destruct (xeqb start (T (SourceTimestamp last))); [exact Hone|].
      destruct (xltb end_ start); [exact Hone|].
      cbv zeta. cbn [node_after requests]. rewrite IH.
      unfold node_after_requests. simpl. rewrite Er. reflexivity.
    + unfold node_after_requests. simpl. rewrite Er. reflexivity.
Qed.

(** A fetch that ends with an error made its last page request to the
    source in the state its earlier requests had left it in; that request
    raised the error and left the node as the fetch leaves it. *)
Lemma fetch_raise_is_last (fuel : nat) :
  forall (node : Node) (start end_ : xtime) (e : exn),
    status (fetch fuel node start end_) = Raised e ->
    exists reqs cursor,
      requests (fetch fuel node start end_) = reqs ++ [(cursor, end_)]
      /\ read_raw_history (state_after node reqs) cursor end_
         = (node_after (fetch fuel node start end_), Raises e).
Proof.
  induction fuel as [|fuel IH]; intros node start end_ e.
  - simpl. discriminate.
  - rewrite fetch_S.
    destruct (read_raw_history node start end_) as [node1 [vals|e']] eqn:Er.
    + destruct (last_value vals) as [last|]; [|discriminate].
      destruct (xeqb start (T (SourceTimestamp last))); [discriminate|].
      destruct (xltb end_ start); [discriminate|].
      cbv zeta. cbn [status node_after requests]. intros H.
      destruct (IH _ _ _ _ H) as [reqs [cursor [E1 E2]]].
      exists ((start, end_) :: reqs), cursor. rewrite E1.
      split; [reflexivity|].
      unfold node_after_requests in *. simpl. rewrite Er. exact E2.
    + cbn [status node_after requests]. intros H. inversion H; subst.
      exists [], start. split; [reflexivity|exact Er].
Qed.

Lemma populate_raise_is_last (fuel : nat) (intervals : list Interval) :
  forall (node : Node) (history : dict) (e : exn),
    status (populate fuel node history intervals) = Raised e ->
    exists reqs starttime endtime,
      requests (populate fuel node history intervals)
      = reqs ++ [(starttime, endtime)]
      /\ read_raw_history (state_after node reqs) starttime endtime
         = (node_after (populate fuel node history intervals), Raises e).
Proof.
  induction intervals as [|m rest IH]; intros node history e.
  - simpl. discriminate.
  - rewrite populate_cons. cbv zeta.
    destruct (status (fetch fuel node (Interval_lower m) (Interval_upper m)))
      eqn:Es; cbn [status requests node_after].
    + intros H. destruct (IH _ _ _ H) as [reqs [s [t [E1 E2]]]].
      exists (requests (fetch fuel node (Interval_lower m)
                              (Interval_upper m)) ++ reqs), s, t.
      rewrite E1, app_assoc. split; [reflexivity|].
      pose proof (fetch_threads fuel node (Interval_lower m)
                    (Interval_upper m)) as Ht.
      unfold node_after_requests in Ht, E2 |- *.
      rewrite fold_left_app, <- Ht. exact E2.
    + intros H. inversion H; subst.
      destruct (fetch_raise_is_last _ _ _ _ _ Es) as [reqs [c [E1 E2]]].
      exists reqs, c, (Interval_upper m). auto.
    + discriminate.
Qed.

Hypothesis in_range : pages_in_range read_raw_history.

Lemma fetch_ends (n : nat) :
  forall (node : Node) (cur end_ : Z),
    (Z.to_nat (end_ - cur) < n)%nat ->
    status (fetch n node (T cur) (T end_)) <> OutOfFuel
    /\ (length (requests (fetch n node (T cur) (T end_)))
        <= S (Z.to_nat (end_ - cur)))%nat.
Proof.
  induction n as [|n IH]; intros node cur end_ Hn; [lia|].
  rewrite fetch_S.
  destruct (read_raw_history node (T cur) (T end_)) as [node1 [vals|e]]
    eqn:Er; [|simpl; split; [discriminate|lia]].
  destruct (last_value vals) as [last|] eqn:El;
    [|simpl; split; [discriminate|lia]].
  destruct (xeqb (T cur) (T (SourceTimestamp last))) eqn:E1;
    [simpl; split; [discriminate|lia]|].
  destruct (xltb (T end_) (T cur)) eqn:E2;
    [simpl; split; [discriminate|lia]|].
  pose proof (in_range _ _ _ _ _ Er) as Hw.
  destruct (last_value_app _ _ El) as [front Hf].
  unfold within in Hw. rewrite Forall_forall in Hw.
  destruct (Hw last) as [H1 H2].
  { subst vals. apply in_or_app. right. now left. }
  assert (Hts : (cur < SourceTimestamp last <= end_)%Z).
  { clear - H1 H2 E1. unfold xleb, xeqb in *. simpl in *.
    destruct (Z.compare_spec cur (SourceTimestamp last));
      destruct (Z.compare_spec (SourceTimestamp last) end_);
      try discriminate; lia. }
  destruct (IH node1 (SourceTimestamp last) end_) as [H3 H4]; [lia|].
  cbv zeta. simpl. split; [exact H3|]. lia.
Qed.

Lemma populate_ends (fuel : nat) (intervals : list Interval) :
  Forall (fun m => exists l u : Z,
                     Interval_lower m = T l /\ Interval_upper m = T u
                     /\ (Z.to_nat (u - l) < fuel)%nat) intervals ->
  forall (node : Node) (history : dict),
    status (populate fuel node history intervals) <> OutOfFuel.
Proof.
  induction 1 as [|m rest [l [u [E1 [E2 Hlt]]]] Hrest IH];
    intros node history; simpl.
  - discriminate.
  - rewrite E1, E2.
    destruct (fetch_ends fuel node l u Hlt) as [Hs _].
    destruct (status (fetch fuel node (T l) (T u))) eqn:Es; simpl.
    + apply IH.
    + discriminate.
    + congruence.
Qed.

Lemma get_history_ends_aux (fuel : nat) (node : Node) (history : dict)
    (start end_ : Z) :
  Forall wf (keys history) ->
  (Z.to_nat (end_ - start) < fuel)%nat ->
  status (get_history read_raw_history fuel node history start end_)
  <> OutOfFuel.
Proof.
  intros Hk Hf. rewrite get_history_populate.
  destruct (Z_lt_ge_dec start end_) as [Hlt|Hge].
  - apply populate_ends.
    destruct (missing_spec history (T start) (T end_) Hk) as [Hw _].
    rewrite (Interval_iter_of_proper _ (wf_proper _ Hw)).
    rewrite Forall_map. apply Forall_forall. intros a Ha.
    change (Interval_lower [a]) with (lower a).
    change (Interval_upper [a]) with (upper a).
    pose proof (Interval_and_request_bounds
                  (Interval_invert
                     (_get_available_interval history (T start) (T end_)))
                  start end_ Hlt) as Hb.
    fold (_get_missing_intervals history (T start) (T end_)) in Hb.
    rewrite Forall_forall in Hb. destruct (Hb a Ha) as [H1 H2].
    pose proof (wf_proper _ Hw) as Hp. rewrite Forall_forall in Hp.
    pose proof (proper_lower_upper a (Hp a Ha)) as H3.
    destruct (lower a) as [|l|], (upper a) as [|u|]; try discriminate.
    exists l, u. repeat split.
    apply xleb_T in H1, H2, H3. lia.
  - rewrite (missing_degenerate history start end_ Hge). simpl. discriminate.
Qed.

End Ends.

Section MoreExtra.

Context {exn Node : Type}.
Variable read_raw_history : Node -> xtime -> xtime -> Node * page exn.

(** X14: when every page of the source holds only points of the requested
    range, the loop of [node_read_full_history(start, end)] ends, normally
    or with an error of the source, after at most [end - start + 1] page
    requests: the cursor moves forward with every page that does not end
    the loop. *)
Theorem fetch_ends_under_contract
    (fuel : nat) (node : Node) (start end_ : Z) :
  pages_in_range read_raw_history ->
  (Z.to_nat (end_ - start) < fuel)%nat ->
  status (node_read_full_history read_raw_history fuel node
                                 (T start) (T end_)) <> OutOfFuel
  /\ (length (requests (node_read_full_history read_raw_history fuel node
                                               (T start) (T end_)))
      <= S (Z.to_nat (end_ - start)))%nat.
Proof. intros Hc. apply fetch_ends. exact Hc. Qed.

(** X15: when every page of the source holds only points of the requested
    range, a call of [get_history(start, end)] ends, normally or with an
    error of the source: none of its gap fetches needs more than
    [end - start + 1] page requests. *)
Theorem get_history_ends_under_contract
    (fuel : nat) (node : Node) (history : dict) (start end_ : Z) :
  pages_in_range read_raw_history ->
  Forall wf (keys history) ->
  (Z.to_nat (end_ - start) < fuel)%nat ->
  status (get_history read_raw_history fuel node history start end_)
  <> OutOfFuel.
Proof. intros Hc. apply get_history_ends_aux. exact Hc. Qed.


End MoreExtra.

Lemma node_g_in_range : pages_in_range node_g.
Proof.
  intros node start end_ node' vals E. unfold node_g in E.
  pose proof (partial_within start end_ [dv 9; dv 2; dv 5]) as Hp.
  remember (_get_partial_dvs start end_ [dv 9; dv 2; dv 5]) as l eqn:El.
  clear El. inversion E; subst. destruct node; [exact Hp|constructor].
Qed.

Lemma fetch_ends_under_contract_witness :
  pages_in_range node_g
  /\ (Z.to_nat (10 - 0) < 11)%nat
  /\ status (node_read_full_history node_g 11 0%nat (T 0) (T 10))
     <> OutOfFuel
  /\ (length (requests (node_read_full_history node_g 11 0%nat (T 0) (T 10)))
      <= S (Z.to_nat (10 - 0)))%nat.
Proof.
  assert (H : (Z.to_nat (10 - 0) < 11)%nat) by (vm_compute; lia).
  split; [exact node_g_in_range|]. split; [exact H|].
  exact (fetch_ends_under_contract node_g 11 0%nat 0 10 node_g_in_range H).
Defined.

Lemma get_history_ends_under_contract_witness :
  pages_in_range node_g
  /\ Forall wf (keys (value after_0_10))
  /\ (Z.to_nat (15 - 5) < 11)%nat
  /\ status (get_history node_g 11 0%nat (value after_0_10) 5 15)
     <> OutOfFuel.
Proof.
  assert (H : (Z.to_nat (15 - 5) < 11)%nat) by (vm_compute; lia).
  split; [exact node_g_in_range|]. split; [exact wf_keys_after_0_10|].
  split; [exact H|].
  exact (get_history_ends_under_contract node_g 11 0%nat (value after_0_10)
           5 15 node_g_in_range wf_keys_after_0_10 H).
Defined.

